(** * A movies REST service: validation schema, in-memory store, CORS gate

    Shallow embedding of [server.js] (the Express request handlers and the
    in-memory [movies] array) and of [schemas/movies.js] (the zod schema and
    its two validators), followed by the properties of the handlers.

    Modelling conventions.
    - A JavaScript object is a finite map from property names to values
      ([gmap string JValue]); object spread is a left-biased union.
    - A JavaScript number that arrives through [JSON.parse] is a finite
      double; every finite double is a rational, and the schema only compares
      numbers with integer constants and asks whether they are integers, so
      numbers are canonical rationals ([Qc]).
    - The zod combinators follow zod 3: [safeParse] collects the issues of all
      fields, [z.object] strips unknown keys, [.partial()] wraps each field in
      an optional, and an optional field that is absent stays absent.
    - [crypto.randomUUID()] and the clock are inputs of the functions that
      read them.
    - An Express handler is a computation on the pair of the [movies] array
      and the response object; it can end by an exception. *)

From stdpp Require Import gmap strings list fin_maps numbers pretty.
From Stdlib Require Import Ascii QArith Qcanon.

Set Warnings "-register-all".
Set Default Proof Using "Type".

(* ===================================================================== *)
(** ** JavaScript values                                                  *)
(* ===================================================================== *)

Module JS.

Inductive JValue : Type :=
  | JNull
  | JBool (b : bool)
  | JNumber (n : Qc)
  | JString (s : string)
  | JArray (items : list JValue)
  | JObject (props : gmap string JValue).

(** [undefined] is the absence of a value: [option JValue] with [None]. *)

(** [String.prototype.toLowerCase], on the ASCII letters. *)
Definition lower_ascii (c : ascii) : ascii :=
  let n := nat_of_ascii c in
  if (65 <=? n)%nat && (n <=? 90)%nat then ascii_of_nat (n + 32) else c.

Fixpoint toLowerCase (s : string) : string :=
  match s with
  | EmptyString => EmptyString
  | String c r => String (lower_ascii c) (toLowerCase r)
  end.

(** [Number.isInteger] on a canonical rational: the denominator is 1. *)
Definition isInteger (n : Qc) : bool := Pos.eqb (Qden (this n)) 1.

(** The own enumerable properties copied by [{...v}]: those of an object, the
    indices of an array, the characters of a string, nothing for
    [undefined], [null], booleans and numbers. *)
Fixpoint string_chars (s : string) : list JValue :=
  match s with
  | EmptyString => []
  | String c r => JString (String c EmptyString) :: string_chars r
  end.

Definition indexed (l : list JValue) : gmap string JValue :=
  list_to_map (imap (fun i x => (pretty i, x)) l).

Definition spread (v : option JValue) : gmap string JValue :=
  match v with
  | Some (JObject props) => props
  | Some (JArray items) => indexed items
  | Some (JString s) => indexed (string_chars s)
  | _ => ∅
  end.

(** [Array.prototype.findIndex]; [None] stands for the result [-1]. *)
Fixpoint array_findIndex {A} (p : A -> bool) (l : list A) : option nat :=
  match l with
  | [] => None
  | x :: r => if p x then Some 0%nat else S <$> array_findIndex p r
  end.

(** [Array.prototype.find]; [None] stands for [undefined]. *)
Fixpoint array_find {A} (p : A -> bool) (l : list A) : option A :=
  match l with
  | [] => None
  | x :: r => if p x then Some x else array_find p r
  end.

(** [Array.prototype.includes] on an array of strings: the searched value is
    compared by strict equality, so only a string can be found. *)
Definition array_includes (l : list string) (v : option JValue) : bool :=
  match v with
  | Some (JString s) => bool_decide (s ∈ l)
  | _ => false
  end.

(** Truthiness of a string or [undefined]. *)
Definition truthy (v : option string) : bool :=
  match v with
  | Some s => negb (String.eqb s EmptyString)
  | None => false
  end.

(** [Array.prototype.some] and [Array.prototype.filter] with a callback that
    can throw ([None]): the first exception ends the iteration; [some] stops
    at the first element for which the callback is true. *)
Fixpoint array_some {A} (cb : A -> option bool) (l : list A) : option bool :=
  match l with
  | [] => Some false
  | x :: r =>
      match cb x with
      | None => None
      | Some true => Some true
      | Some false => array_some cb r
      end
  end.

Fixpoint array_filter {A} (cb : A -> option bool) (l : list A) : option (list A) :=
  match l with
  | [] => Some []
  | x :: r =>
      match cb x with
      | None => None
      | Some keep =>
          match array_filter cb r with
          | None => None
          | Some r' => Some (if keep then x :: r' else r')
          end
      end
  end.

(** [Array.prototype.push] and [splice(i, 1)]. *)
Definition array_push {A} (l : list A) (x : A) : list A := l ++ [x].
Definition array_splice1 {A} (i : nat) (l : list A) : list A := delete i l.

End JS.
Export JS.

(* ===================================================================== *)
(** ** The zod combinators used by the schema                             *)
(* ===================================================================== *)

Module Zod.

Inductive PathSeg : Type :=
  | PKey (k : string)
  | PIndex (i : nat).

Inductive ZodIssueCode : Type :=
  | invalid_type (expected received : string)
  | invalid_enum_value (options : list string) (received : string)
  | too_small (minimum : Qc) (inclusive : bool)
  | too_big (maximum : Qc) (inclusive : bool).

Record ZodIssue : Type := Issue { code : ZodIssueCode; path : list PathSeg }.

(** The result of parsing one value: the parsed output (possibly
    [undefined]) or the issues found. *)
Inductive ParseReturn : Type :=
  | OK (value : option JValue)
  | INVALID (issues : list ZodIssue).

Definition ZodType : Type := option JValue -> list PathSeg -> ParseReturn.

Definition issues_of (r : ParseReturn) : list ZodIssue :=
  match r with OK _ => [] | INVALID issues => issues end.

Definition output_of (r : ParseReturn) : option JValue :=
  match r with OK v => v | INVALID _ => None end.

Definition getParsedType (data : option JValue) : string :=
  match data with
  | None => "undefined"
  | Some JNull => "null"
  | Some (JBool _) => "boolean"
  | Some (JNumber _) => "number"
  | Some (JString _) => "string"
  | Some (JArray _) => "array"
  | Some (JObject _) => "object"
  end.

(** [z.string()] *)
Definition z_string : ZodType := fun data path =>
  match data with
  | Some (JString _) => OK data
  | _ => INVALID [Issue (invalid_type "string" (getParsedType data)) path]
  end.

(** [z.number()] with its chain of checks; [.int()], [.min(v)], [.max(v)]
    and [.positive()] each append one check. *)
Inductive ZodNumberCheck : Type :=
  | check_int
  | check_min (value : Qc) (inclusive : bool)
  | check_max (value : Qc) (inclusive : bool).

Definition ZodNumber : Type := list ZodNumberCheck.

Definition z_number : ZodNumber := [].
Definition z_int (s : ZodNumber) : ZodNumber := s ++ [check_int].
Definition z_min (v : Z) (s : ZodNumber) : ZodNumber := s ++ [check_min (Qc_of_Z v) true].
Definition z_max (v : Z) (s : ZodNumber) : ZodNumber := s ++ [check_max (Qc_of_Z v) true].
Definition z_positive (s : ZodNumber) : ZodNumber := s ++ [check_min (Qc_of_Z 0) false].

Definition check_issue (n : Qc) (path : list PathSeg) (c : ZodNumberCheck)
  : list ZodIssue :=
  match c with
  | check_int =>
      if isInteger n then [] else [Issue (invalid_type "integer" "float") path]
  | check_min v inclusive =>
      let tooSmall :=
        if inclusive then bool_decide (n < v)%Qc else bool_decide (n <= v)%Qc in
      if tooSmall then [Issue (too_small v inclusive) path] else []
  | check_max v inclusive =>
      let tooBig :=
        if inclusive then bool_decide (v < n)%Qc else bool_decide (v <= n)%Qc in
      if tooBig then [Issue (too_big v inclusive) path] else []
  end.

Definition number_parse (s : ZodNumber) : ZodType := fun data path =>
  match data with
  | Some (JNumber n) =>
      match concat (map (check_issue n path) s) with
      | [] => OK data
      | issues => INVALID issues
      end
  | _ => INVALID [Issue (invalid_type "number" (getParsedType data)) path]
  end.

(** [z.enum([...])] *)
Fixpoint joinValues (l : list string) : string :=
  match l with
  | [] => EmptyString
  | [v] => "'" +:+ v +:+ "'"
  | v :: r => "'" +:+ v +:+ "' | " +:+ joinValues r
  end.

Definition z_enum (values : list string) : ZodType := fun data path =>
  match data with
  | Some (JString s) =>
      if bool_decide (s ∈ values) then OK data
      else INVALID [Issue (invalid_enum_value values s) path]
  | _ => INVALID [Issue (invalid_type (joinValues values) (getParsedType data)) path]
  end.

(** [z.array(element)]: every element is parsed, under the path extended by
    its index, and the issues of all elements are collected. An element whose
    output is [undefined] is written [null], as [JSON.stringify] does. *)
Definition mergeArray (results : list ParseReturn) : ParseReturn :=
  let issues :=
    concat (map (fun r => match r with INVALID i => i | OK _ => [] end) results) in
  match issues with
  | [] => OK (Some (JArray
            (map (fun r => match r with OK (Some v) => v | _ => JNull end) results)))
  | _ => INVALID issues
  end.

Definition z_array (element : ZodType) : ZodType := fun data path =>
  match data with
  | Some (JArray items) =>
      mergeArray (imap (fun i x => element (Some x) (path ++ [PIndex i])) items)
  | _ => INVALID [Issue (invalid_type "array" (getParsedType data)) path]
  end.

(** [schema.default(v)] and [schema.optional()] *)
Definition z_default (def : JValue) (inner : ZodType) : ZodType := fun data path =>
  match data with
  | None => inner (Some def) path
  | Some _ => inner data path
  end.

Definition z_optional (inner : ZodType) : ZodType := fun data path =>
  match data with
  | None => OK None
  | Some _ => inner data path
  end.

(** [z.object(shape)]: the keys of the shape are parsed in order, each under
    the path extended by its key; keys outside the shape are stripped; a key
    whose output is [undefined] is left out of the result. *)
Definition ZodObject : Type := list (string * ZodType).

Fixpoint mergeObject (pairs : list (string * ParseReturn))
  : gmap string JValue * list ZodIssue :=
  match pairs with
  | [] => (∅, [])
  | (key, r) :: rest =>
      let '(finalObject, issues) := mergeObject rest in
      match r with
      | OK (Some v) => (<[key := v]> finalObject, issues)
      | OK None => (finalObject, issues)
      | INVALID i => (finalObject, i ++ issues)
      end
  end.

Definition object_parse (shape : ZodObject) : ZodType := fun data path =>
  match data with
  | Some (JObject props) =>
      let pairs :=
        map (fun '(key, t) => (key, t (props !! key) (path ++ [PKey key]))) shape in
      match mergeObject pairs with
      | (finalObject, []) => OK (Some (JObject finalObject))
      | (_, issues) => INVALID issues
      end
  | _ => INVALID [Issue (invalid_type "object" (getParsedType data)) path]
  end.

(** [objectSchema.partial()] *)
Definition partial (shape : ZodObject) : ZodObject :=
  map (fun '(key, t) => (key, z_optional t)) shape.

(** [schema.safeParse(data)]: [{success: true, data}] or
    [{success: false, error}]. *)
Inductive SafeParseReturn : Type :=
  | SafeParseSuccess (data : option JValue)
  | SafeParseError (error : list ZodIssue).

Definition safeParse (t : ZodType) (data : option JValue) : SafeParseReturn :=
  match t data [] with
  | OK v => SafeParseSuccess v
  | INVALID issues => SafeParseError issues
  end.

Definition success (r : SafeParseReturn) : bool :=
  match r with SafeParseSuccess _ => true | SafeParseError _ => false end.

(** [result.data] and [result.error]; each is [undefined] in the other case. *)
Definition data_of (r : SafeParseReturn) : option JValue :=
  match r with SafeParseSuccess d => d | SafeParseError _ => None end.

Definition error_of (r : SafeParseReturn) : option (list ZodIssue) :=
  match r with SafeParseSuccess _ => None | SafeParseError e => Some e end.

End Zod.
Export Zod.

(* ===================================================================== *)
(** ** schemas/movies.js                                                  *)
(* ===================================================================== *)

Module Schemas.

Definition genres : list string :=
  ["action"; "adventure"; "sci-fi"; "fantasy"; "drama"; "crime"].

(** [movieSchema] is built once, when the module is loaded; [fullYear] is
    the value of [new Date().getFullYear()] at that moment. *)
Definition movieSchema (fullYear : Z) : ZodObject :=
  [ ("title", z_string);
    ("year", number_parse (z_max fullYear (z_min 1900 (z_int z_number))));
    ("director", z_string);
    ("duration", number_parse (z_positive (z_int z_number)));
    ("genre", z_array (z_enum genres));
    ("rating", z_default (JNumber (Qc_of_Z 5))
                 (number_parse (z_max 10 (z_min 0 z_number)))) ].

Definition validateMovie (fullYear : Z) (object : option JValue) : SafeParseReturn :=
  safeParse (object_parse (movieSchema fullYear)) object.

Definition validateMoviePartial (fullYear : Z) (object : option JValue)
  : SafeParseReturn :=
  safeParse (object_parse (partial (movieSchema fullYear))) object.

End Schemas.
Export Schemas.

(* ===================================================================== *)
(** ** server.js                                                          *)
(* ===================================================================== *)

Module Server.

Definition ACCEPTED_ORIGINS : list string :=
  [ "http://localhost:8080";
    "http://localhost:1234";
    "https://movies.com" ].

(** What a handler reads from [req]: [req.header('origin')],
    [req.query.genre], [req.params.id] and [req.body]. *)
Record Request : Type := {
  origin_header : option string;
  query_genre : option string;
  params_id : string;
  body : option JValue
}.

(** What is written to the client. [json_error issues] is the body
    [{error: JSON.parse(result.error.message)}]. The headers are those the
    handler sets with [res.header]. *)
Inductive Body : Type :=
  | json (v : JValue)
  | json_error (issues : list ZodIssue)
  | text (s : string)
  | status_body (n : nat).

Record Response : Type := {
  status : nat;
  headers : gmap string string;
  payload : Body
}.

(** The response object: the status code and headers set so far, and the
    response once it has been sent. *)
Record Res : Type := {
  statusCode : nat;
  resHeaders : gmap string string;
  sent : option Response
}.

Record World : Type := {
  movies : list (gmap string JValue);
  res : Res
}.

(** A handler runs on the world and ends normally or by an exception; the
    effects made before the exception stay. *)
Inductive Completion (A : Type) : Type :=
  | Normal (a : A) (w : World)
  | Throw (w : World).
Arguments Normal {A} a w.
Arguments Throw {A} w.

Definition Handler (A : Type) : Type := World -> Completion A.

#[export] Instance handler_ret : MRet Handler := fun A a w => Normal a w.

#[export] Instance handler_bind : MBind Handler := fun A B f m w =>
  match m w with
  | Normal a w' => f a w'
  | Throw w' => Throw w'
  end.

Definition world_of {A} (c : Completion A) : World :=
  match c with Normal _ w => w | Throw w => w end.

Definition threw {A} (c : Completion A) : bool :=
  match c with Normal _ _ => false | Throw _ => true end.

Definition set_res (r : Res) : Handler unit := fun w =>
  Normal tt {| movies := movies w; res := r |}.

Definition set_movies (ms : list (gmap string JValue)) : Handler unit := fun w =>
  Normal tt {| movies := ms; res := res w |}.

Definition get_movies : Handler (list (gmap string JValue)) := fun w =>
  Normal (movies w) w.

Definition throw {A} : Handler A := fun w => Throw w.

(** [res.status(n)] *)
Definition res_status (n : nat) : Handler unit := fun w =>
  set_res {| statusCode := n; resHeaders := resHeaders (res w); sent := sent (res w) |} w.

(** [res.header(name, value)]: an exception once the response is sent. *)
Definition res_header (name value : string) : Handler unit := fun w =>
  match sent (res w) with
  | Some _ => Throw w
  | None =>
      set_res {| statusCode := statusCode (res w);
                 resHeaders := <[name := value]> (resHeaders (res w));
                 sent := None |} w
  end.

(** [res.json(v)], [res.send(v)]: the response goes out with the status code
    and headers set so far; an exception when one has been sent already. *)
Definition res_send (b : Body) : Handler unit := fun w =>
  match sent (res w) with
  | Some _ => Throw w
  | None =>
      set_res {| statusCode := statusCode (res w);
                 resHeaders := resHeaders (res w);
                 sent := Some {| status := statusCode (res w);
                                 headers := resHeaders (res w);
                                 payload := b |} |} w
  end.

(** [res.end(s)]: as above, and nothing happens when the response has ended. *)
Definition res_end (s : string) : Handler unit := fun w =>
  match sent (res w) with
  | Some _ => Normal tt w
  | None => res_send (text s) w
  end.

Definition when (c : bool) (h : Handler unit) : Handler unit :=
  if c then h else mret tt.

(** [movie.id === id] *)
Definition id_is (id : string) (movie : gmap string JValue) : bool :=
  match movie !! "id" with
  | Some (JString s) => String.eqb s id
  | _ => false
  end.

(** The callbacks of the genre filter; [None] is a [TypeError] (no [genre]
    array on the movie, or an element without [toLowerCase]). *)
Definition genre_callback (g : JValue) : option bool :=
  match g with
  | JString g => Some (String.eqb (toLowerCase g) (toLowerCase g))
  | _ => None
  end.

Definition filter_callback (movie : gmap string JValue) : option bool :=
  match movie !! "genre" with
  | Some (JArray genre) => array_some genre_callback genre
  | _ => None
  end.

Definition movies_json (ms : list (gmap string JValue)) : Body :=
  json (JArray (JObject <$> ms)).

Definition message (s : string) : Body :=
  json (JObject {[ "message" := JString s ]}).

(** The origin check of [GET /movies] and [DELETE /movies/:id]. The header
    name is ['origin' || !origin], which is ['origin']. *)
Definition cors (req : Request) : Handler unit :=
  let origin := origin_header req in
  when (array_includes ACCEPTED_ORIGINS (JString <$> origin))
    (res_header "Access-Control-Allow-Origin" (default EmptyString origin)).

(** [app.get('/movies')] *)
Definition get_movies_handler (req : Request) : Handler unit :=
  cors req ;;
  let genre := query_genre req in
  ms ← get_movies ;
  if truthy genre then
    match array_filter filter_callback ms with
    | Some filteredMovies => res_send (movies_json filteredMovies)
    | None => throw
    end
  else res_send (movies_json ms).

(** [app.get('/movies/:id')] *)
Definition get_movie_handler (req : Request) : Handler unit :=
  let id := params_id req in
  ms ← get_movies ;
  match array_find (id_is id) ms with
  | Some movie => res_send (json (JObject movie))
  | None => res_status 400 ;; res_end "<h1>Movie not found</h1>"
  end.

(** [app.post('/movies')]; [uuid] is the result of [crypto.randomUUID()],
    [fullYear] the year the schema was built with. *)
Definition post_movies_handler (fullYear : Z) (uuid : string) (req : Request)
  : Handler unit :=
  let result := validateMovie fullYear (body req) in
  match error_of result with
  | Some error => res_status 400 ;; res_send (json_error error)
  | None => mret tt
  end ;;
  let newMovie := spread (data_of result) ∪ {[ "id" := JString uuid ]} in
  ms ← get_movies ;
  set_movies (array_push ms newMovie) ;;
  res_status 201 ;;
  res_send (json (JObject newMovie)).

(** [app.patch('/movies/:id')] *)
Definition patch_movie_handler (fullYear : Z) (req : Request) : Handler unit :=
  let result := validateMoviePartial fullYear (body req) in
  when (negb (success result))
    match error_of result with
    | Some error => res_status 400 ;; res_send (json_error error)
    | None => throw
    end ;;
  let id := params_id req in
  ms ← get_movies ;
  match array_findIndex (id_is id) ms with
  | None => res_status 404 ;; res_send (message "Movie not found")
  | Some movieIndex =>
      let updatedMovie :=
        spread (data_of result) ∪ spread (JObject <$> ms !! movieIndex) in
      set_movies (<[movieIndex := updatedMovie]> ms) ;;
      res_status 201 ;;
      res_send (json (JObject updatedMovie))
  end.

(** [app.delete('/movies/:id')] *)
Definition delete_movie_handler (req : Request) : Handler unit :=
  cors req ;;
  let id := params_id req in
  ms ← get_movies ;
  match array_findIndex (id_is id) ms with
  | None => res_status 404 ;; res_send (message "Movie not found")
  | Some movieIndex =>
      set_movies (array_splice1 movieIndex ms) ;;
      res_send (message "Movie deleted")
  end.

(** [app.options('/movies/:id')]; the searched value is [origin || !origin]:
    the origin when it is a non-empty string, [true] otherwise. *)
Definition options_movie_handler (req : Request) : Handler unit :=
  let origin := origin_header req in
  when (array_includes ACCEPTED_ORIGINS
          (if truthy origin then JString <$> origin else Some (JBool true)))
    (res_header "Access-Control-Allow-Origin" (default EmptyString origin) ;;
     res_header "Access-Control-Allow-Methods" "GET, POST, PATCH, DELETE" ;;
     res_header "Access-Control-Allow-Headers" "Content-Type, Authorization") ;;
  res_send (status_body 200).

(** A request arrives with a response object on which nothing is set. *)
Definition fresh_res : Res :=
  {| statusCode := 200; resHeaders := ∅; sent := None |}.

Definition serve (h : Handler unit) (ms : list (gmap string JValue))
  : Completion unit :=
  h {| movies := ms; res := fresh_res |}.

Definition store_after (c : Completion unit) : list (gmap string JValue) :=
  movies (world_of c).

Definition response_of (c : Completion unit) : option Response :=
  sent (res (world_of c)).

Definition headers_set (c : Completion unit) : gmap string string :=
  resHeaders (res (world_of c)).

(** The same request declared from another origin, and what a handler did
    apart from the headers: the store it leaves, whether it ended by an
    exception, and the status and body of the response. *)
Definition with_origin (origin : option string) (req : Request) : Request :=
  {| origin_header := origin;
     query_genre := query_genre req;
     params_id := params_id req;
     body := body req |}.

Definition business (c : Completion unit)
  : list (gmap string JValue) * bool * option (nat * Body) :=
  (store_after c, threw c, (fun r => (status r, payload r)) <$> response_of c).

End Server.
Export Server.

(* ===================================================================== *)
(** ** The contract, in the words of the specification                    *)
(* ===================================================================== *)

Module Spec.

(** The fields of a movie that a client supplies. *)
Inductive Field : Type :=
  | Title | Year | Director | Duration | Genre | Rating.

Definition fields : list Field := [Title; Year; Director; Duration; Genre; Rating].

Definition name (f : Field) : string :=
  match f with
  | Title => "title"
  | Year => "year"
  | Director => "director"
  | Duration => "duration"
  | Genre => "genre"
  | Rating => "rating"
  end.

(** The closed set of genre tags. *)
Definition tags : list string :=
  ["action"; "adventure"; "sci-fi"; "fantasy"; "drama"; "crime"].

(** The constraint of each field: title and director text; year an integer
    in [[1900, currentYear]]; duration a positive integer; genre a sequence
    of tags; rating a real number in [[0, 10]]. *)
Definition constraint (currentYear : Z) (f : Field) (v : JValue) : Prop :=
  match f with
  | Title | Director => exists s, v = JString s
  | Year => exists z : Z, v = JNumber (Qc_of_Z z) /\ (1900 <= z <= currentYear)%Z
  | Duration => exists z : Z, v = JNumber (Qc_of_Z z) /\ (0 < z)%Z
  | Genre =>
      exists items, v = JArray items /\
        forall g, g ∈ items -> exists s, g = JString s /\ s ∈ tags
  | Rating => exists q : Qc, v = JNumber q /\ (Qc_of_Z 0 <= q)%Qc /\ (q <= Qc_of_Z 10)%Qc
  end.

(** Full validation: every field but the rating is required, the rating is
    checked when present. *)
Definition full_ok (currentYear : Z) (candidate : option JValue) : Prop :=
  exists props, candidate = Some (JObject props) /\
    (forall f, f <> Rating ->
       exists v, props !! name f = Some v /\ constraint currentYear f v) /\
    (forall v, props !! name Rating = Some v -> constraint currentYear Rating v).

(** Partial validation: a field is checked when present. *)
Definition partial_ok (currentYear : Z) (candidate : option JValue) : Prop :=
  exists props, candidate = Some (JObject props) /\
    forall f v, props !! name f = Some v -> constraint currentYear f v.

(** The supplied fields of a candidate, and the normalized resource of a full
    submission: the supplied fields with the rating defaulted to 5. *)
Definition supplied (props : gmap string JValue) : gmap string JValue :=
  filter (fun kv => kv.1 ∈ name <$> fields) props.

Definition normalized (props : gmap string JValue) : gmap string JValue :=
  <["rating" := default (JNumber (Qc_of_Z 5)) (props !! "rating")]> (supplied props).

(** A field offends full validation when it is required and missing or
    present and against its constraint; it offends partial validation only
    in the second case. An issue reports a field when its path starts with
    the name of the field. *)
Definition offends_full (currentYear : Z) (props : gmap string JValue) (f : Field)
  : Prop :=
  match props !! name f with
  | Some v => ~ constraint currentYear f v
  | None => f <> Rating
  end.

Definition offends_partial (currentYear : Z) (props : gmap string JValue) (f : Field)
  : Prop :=
  match props !! name f with
  | Some v => ~ constraint currentYear f v
  | None => False
  end.

Definition reports (issues : list ZodIssue) (f : Field) : Prop :=
  exists i, i ∈ issues /\ head (path i) = Some (PKey (name f)).

(** The table of field constraints, as the violations an error can list.
    [field_violation required currentYear f d c rest] reads: the value [d] of
    field [f] (absent when [None]) violates the constraint that the issue
    code [c] names, at the position [rest] inside the field. A missing field
    is a violation only where the field is required. *)
Definition type_name (f : Field) : string :=
  match f with
  | Title | Director => "string"
  | Year | Duration | Rating => "number"
  | Genre => "array"
  end.

Definition required_full (f : Field) : bool :=
  match f with Rating => false | _ => true end.

Definition required_partial (f : Field) : bool := false.

Inductive field_violation (required : Field -> bool) (currentYear : Z)
  : Field -> option JValue -> ZodIssueCode -> list PathSeg -> Prop :=
  | missing_field f :
      required f = true ->
      field_violation required currentYear f None
        (invalid_type (type_name f) "undefined") []
  | mistyped_field f v :
      getParsedType (Some v) <> type_name f ->
      field_violation required currentYear f (Some v)
        (invalid_type (type_name f) (getParsedType (Some v))) []
  | not_an_integer f n :
      f = Year \/ f = Duration ->
      isInteger n = false ->
      field_violation required currentYear f (Some (JNumber n))
        (invalid_type "integer" "float") []
  | year_before_1900 n :
      (n < Qc_of_Z 1900)%Qc ->
      field_violation required currentYear Year (Some (JNumber n))
        (too_small (Qc_of_Z 1900) true) []
  | year_after_current n :
      (Qc_of_Z currentYear < n)%Qc ->
      field_violation required currentYear Year (Some (JNumber n))
        (too_big (Qc_of_Z currentYear) true) []
  | duration_not_positive n :
      (n <= Qc_of_Z 0)%Qc ->
      field_violation required currentYear Duration (Some (JNumber n))
        (too_small (Qc_of_Z 0) false) []
  | rating_below_0 n :
      (n < Qc_of_Z 0)%Qc ->
      field_violation required currentYear Rating (Some (JNumber n))
        (too_small (Qc_of_Z 0) true) []
  | rating_above_10 n :
      (Qc_of_Z 10 < n)%Qc ->
      field_violation required currentYear Rating (Some (JNumber n))
        (too_big (Qc_of_Z 10) true) []
  | genre_outside_enum items k s :
      items !! k = Some (JString s) ->
      s ∉ tags ->
      field_violation required currentYear Genre (Some (JArray items))
        (invalid_enum_value tags s) [PIndex k]
  | genre_not_text items k g :
      items !! k = Some g ->
      (forall s, g <> JString s) ->
      field_violation required currentYear Genre (Some (JArray items))
        (invalid_type (joinValues tags) (getParsedType (Some g))) [PIndex k].

Definition violation (required : Field -> bool) (currentYear : Z)
  (props : gmap string JValue) (i : ZodIssue) : Prop :=
  exists f rest,
    path i = PKey (name f) :: rest /\
    field_violation required currentYear f (props !! name f) (code i) rest.

(** [listByGenre(tag)]: the resources whose genre sequence contains a
    case-insensitive match of the tag. *)
Definition tag_matches (tag : string) (g : JValue) : bool :=
  match g with
  | JString s => String.eqb (toLowerCase s) (toLowerCase tag)
  | _ => false
  end.

Definition has_genre (tag : string) (movie : gmap string JValue) : bool :=
  match movie !! "genre" with
  | Some (JArray items) => existsb (tag_matches tag) items
  | _ => false
  end.

Definition listByGenre (tag : string) (ms : list (gmap string JValue))
  : list (gmap string JValue) :=
  List.filter (has_genre tag) ms.

(** The Origin Gate: the access-control headers granted to the declared
    origin of a request. An origin in the allow-list is granted itself; a
    pre-flight exchange is also told the permitted methods and headers; any
    other origin, or none, is granted nothing. *)
Definition authorize (allow_list : list string) (preflight : bool)
  (origin : option string) : gmap string string :=
  match origin with
  | Some o =>
      if bool_decide (o ∈ allow_list) then
        if preflight then
          {[ "Access-Control-Allow-Origin" := o;
             "Access-Control-Allow-Methods" := "GET, POST, PATCH, DELETE";
             "Access-Control-Allow-Headers" := "Content-Type, Authorization" ]}
        else {[ "Access-Control-Allow-Origin" := o ]}
      else ∅
  | None => ∅
  end.

(** A resource with the given id is in the store. *)
Definition has_id (id : string) (movie : gmap string JValue) : Prop :=
  movie !! "id" = Some (JString id).

Definition present (id : string) (ms : list (gmap string JValue)) : Prop :=
  exists movie, movie ∈ ms /\ has_id id movie.

End Spec.

(** The type the schema gives to each field, and the same under
    [.partial()]. *)
Definition schema_type (fullYear : Z) (f : Spec.Field) : ZodType :=
  match f with
  | Spec.Title => z_string
  | Spec.Year => number_parse (z_max fullYear (z_min 1900 (z_int z_number)))
  | Spec.Director => z_string
  | Spec.Duration => number_parse (z_positive (z_int z_number))
  | Spec.Genre => z_array (z_enum genres)
  | Spec.Rating =>
      z_default (JNumber (Qc_of_Z 5)) (number_parse (z_max 10 (z_min 0 z_number)))
  end.

Definition field_result (t : Spec.Field -> ZodType) (props : gmap string JValue)
  (f : Spec.Field) : ParseReturn :=
  t f (props !! Spec.name f) [PKey (Spec.name f)].

(** An object schema with one type for each field, in the order of the
    fields. *)
Definition fields_schema (t : Spec.Field -> ZodType) : ZodObject :=
  map (fun f => (Spec.name f, t f)) Spec.fields.

(** Proof steps shared by the cases of the field lemmas. *)
Ltac type_issue F :=
  match goal with
  | Hp : path ?i = ?p, Hc : code ?i = _ |- _ =>
      exists []; rewrite app_nil_r, Hc; split; [done|];
      match goal with
      | |- Spec.field_violation _ _ _ (Some _) _ _ => by apply (Spec.mistyped_field _ _ F)
      | |- Spec.field_violation _ _ _ None _ _ => by apply (Spec.missing_field _ _ F)
      end
  end.

Ltac check_issue_of c elem :=
  right; eexists _, c; split; [done|]; split;
    [ repeat first [ by apply list_elem_of_here | apply list_elem_of_further ]
    | apply elem; by rewrite ?app_nil_r in * ].

Ltac absurd_field :=
  match goal with
  | H : _ = _ \/ _ = _ |- _ => by destruct H
  end.

(** Running a handler: the monad's operations are unfolded and the accesses
    to the world computed. *)
Ltac run_handler :=
  unfold serve;
  unfold mbind, mret, handler_bind, handler_ret, get_movies, set_movies, when;
  cbn [movies res].

(* ===================================================================== *)
(** ** The main page, and notions about the store                         *)
(* ===================================================================== *)

(** [app.get('/')] *)
Definition main_page_handler (req : Request) : Handler unit :=
  res_end "<h1>Main Page</h1>".

(** The [id] properties of the stored resources, in order ([None] where a
    resource has none). *)
Definition ids (ms : list (gmap string JValue)) : list (option JValue) :=
  (fun movie => movie !! "id") <$> ms.

(** A stored resource conforms when it passes the full contract for the
    year the schema was built with. *)
Definition conforms (fullYear : Z) (movie : gmap string JValue) : Prop :=
  Spec.full_ok fullYear (Some (JObject movie)).

(** The [genre] of a resource is an array of strings, and it is not empty. *)
Definition genre_texts (movie : gmap string JValue) : Prop :=
  exists items, movie !! "genre" = Some (JArray items) /\
    forall g, g ∈ items -> exists s, g = JString s.

Definition has_genres (movie : gmap string JValue) : bool :=
  match movie !! "genre" with
  | Some (JArray (_ :: _)) => true
  | _ => false
  end.

(** At most one stored resource has the id. *)
Definition only_one (id : string) (ms : list (gmap string JValue)) : Prop :=
  forall i j m m',
    ms !! i = Some m -> ms !! j = Some m' ->
    Spec.has_id id m -> Spec.has_id id m' -> i = j.

(* ===================================================================== *)
(** ** Facts about the validators                                         *)
(* ===================================================================== *)

Section ZodFacts.

Lemma isInteger_spec (n : Qc) : isInteger n = true <-> exists z : Z, n = Qc_of_Z z.
Proof.
  unfold isInteger. rewrite Pos.eqb_eq. split.
  - intros Hden. exists (Qnum (this n)).
    apply Qc_is_canon. destruct n as [[num den] Hc]. simpl in *. subst den. reflexivity.
  - intros [z ->]. reflexivity.
Qed.

Lemma mergeObject_issues pairs :
  (mergeObject pairs).2 = concat (map (fun kr => issues_of kr.2) pairs).
Proof.
  induction pairs as [|[key r] rest IH]; [done|].
  simpl. destruct (mergeObject rest) as [obj issues]. simpl in *. subst issues.
  by destruct r as [[v|]|i].
Qed.

Lemma mergeObject_output pairs :
  (mergeObject pairs).1 =
  list_to_map (omap (fun kr => pair kr.1 <$> output_of kr.2) pairs).
Proof.
  induction pairs as [|[key r] rest IH]; [done|].
  simpl. destruct (mergeObject rest) as [obj issues]. simpl in *. subst obj.
  by destruct r as [[v|]|i].
Qed.

(** The result of an object schema on an object, in one equation. *)
Lemma object_parse_object shape props path :
  let pairs :=
    map (fun '(key, t) => (key, t (props !! key) (path ++ [PKey key]))) shape in
  object_parse shape (Some (JObject props)) path =
  match concat (map (fun kr => issues_of kr.2) pairs) with
  | [] => OK (Some (JObject
            (list_to_map (omap (fun kr => pair kr.1 <$> output_of kr.2) pairs))))
  | issues => INVALID issues
  end.
Proof.
  intros pairs. unfold object_parse. fold pairs.
  rewrite <- mergeObject_issues, <- mergeObject_output.
  by destruct (mergeObject pairs) as [obj [|i issues]].
Qed.

Lemma object_parse_not_object shape data path :
  (forall props, data <> Some (JObject props)) ->
  object_parse shape data path =
  INVALID [Issue (invalid_type "object" (getParsedType data)) path].
Proof. intros H. destruct data as [[]|]; try done. by destruct (H props). Qed.

Lemma movieSchema_fields fullYear :
  movieSchema fullYear = map (fun f => (Spec.name f, schema_type fullYear f)) Spec.fields.
Proof. reflexivity. Qed.

Lemma partial_fields fullYear :
  partial (movieSchema fullYear) =
  map (fun f => (Spec.name f, z_optional (schema_type fullYear f))) Spec.fields.
Proof. reflexivity. Qed.


Lemma concat_map_nil {A B} (f : A -> list B) (l : list A) :
  concat (map f l) = [] <-> Forall (fun x => f x = []) l.
Proof.
  induction l as [|x l IH]; simpl.
  - split; [constructor|done].
  - rewrite app_nil, Forall_cons, IH. done.
Qed.

Lemma elem_of_concat_map {A B} (f : A -> list B) (l : list A) (x : B) :
  x ∈ concat (map f l) <-> exists y, y ∈ l /\ x ∈ f y.
Proof.
  induction l as [|a l IH]; simpl.
  - split; [by intros ?%elem_of_nil|]. by intros (y & ?%elem_of_nil & _).
  - rewrite elem_of_app, IH. split.
    + intros [H|(y & Hy & H)]; [exists a|exists y]; split; auto; by constructor.
    + intros (y & [->|Hy]%elem_of_cons & H); eauto.
Qed.

Lemma check_int_nil n p : check_issue n p check_int = [] <-> isInteger n = true.
Proof. simpl. by destruct (isInteger n). Qed.

Lemma check_min_nil n p v :
  check_issue n p (check_min v true) = [] <-> (v <= n)%Qc.
Proof.
  simpl. case_bool_decide as H; split; try done.
  - intros Hle. by apply Qcle_not_lt in Hle.
  - intros _. by apply Qcnot_lt_le.
Qed.

Lemma check_positive_nil n p v :
  check_issue n p (check_min v false) = [] <-> (v < n)%Qc.
Proof.
  simpl. case_bool_decide as H; split; try done.
  - intros Hlt. by apply Qclt_not_le in Hlt.
  - intros _. by apply Qcnot_le_lt.
Qed.

Lemma check_max_nil n p v :
  check_issue n p (check_max v true) = [] <-> (n <= v)%Qc.
Proof.
  simpl. case_bool_decide as H; split; try done.
  - intros Hle. by apply Qcle_not_lt in Hle.
  - intros _. by apply Qcnot_lt_le.
Qed.

Lemma number_parse_accepts s d p :
  issues_of (number_parse s d p) = [] <->
  exists n, d = Some (JNumber n) /\ Forall (fun c => check_issue n p c = []) s.
Proof.
  unfold number_parse. split.
  - destruct d as [[]|]; try done. intros H. exists n. split; [done|].
    apply concat_map_nil. by destruct (concat _).
  - intros (n & -> & H). apply concat_map_nil in H. by rewrite H.
Qed.

Lemma number_parse_output s d p :
  issues_of (number_parse s d p) = [] -> number_parse s d p = OK d.
Proof.
  unfold number_parse. destruct d as [[]|]; try done.
  by destruct (concat _).
Qed.

Lemma z_string_accepts d p :
  issues_of (z_string d p) = [] <-> exists s, d = Some (JString s).
Proof.
  split.
  - destruct d as [[]|]; try done. eauto.
  - by intros [s ->].
Qed.

Lemma z_string_output d p : issues_of (z_string d p) = [] -> z_string d p = OK d.
Proof. by destruct d as [[]|]. Qed.

Lemma z_enum_accepts values v p :
  issues_of (z_enum values (Some v) p) = [] <-> exists s, v = JString s /\ s ∈ values.
Proof.
  split.
  - destruct v; try done. simpl. case_bool_decide; [eauto|done].
  - intros (s & -> & Hin). simpl. by rewrite bool_decide_eq_true_2.
Qed.

Lemma z_enum_output values v p :
  issues_of (z_enum values (Some v) p) = [] -> z_enum values (Some v) p = OK (Some v).
Proof. destruct v; try done. simpl. by case_bool_decide. Qed.

Lemma enum_items_accepts values (at_ : nat -> list PathSeg) items :
  concat (map issues_of (imap (fun i x => z_enum values (Some x) (at_ i)) items)) = [] <->
  forall g, g ∈ items -> exists s, g = JString s /\ s ∈ values.
Proof.
  revert at_. induction items as [|x items IH]; intros at_.
  - split; [|done]. intros _ g Hg. by apply elem_of_nil in Hg.
  - rewrite imap_cons. cbn [map concat]. rewrite app_nil, z_enum_accepts.
    rewrite (IH (at_ ∘ S)). split.
    + intros [Hx Hr] g [->|Hg]%elem_of_cons; auto.
    + intros H. split; [apply H; left|intros g Hg; apply H; by right].
Qed.

Lemma enum_items_output values (at_ : nat -> list PathSeg) items :
  concat (map issues_of (imap (fun i x => z_enum values (Some x) (at_ i)) items)) = [] ->
  map (fun r => match r with OK (Some v) => v | _ => JNull end)
      (imap (fun i x => z_enum values (Some x) (at_ i)) items) = items.
Proof.
  revert at_. induction items as [|x items IH]; intros at_; [done|].
  rewrite imap_cons. cbn [map concat]. intros [Hx Hr]%app_nil.
  rewrite (z_enum_output _ _ _ Hx). f_equal. by apply (IH (at_ ∘ S)).
Qed.

Lemma mergeArray_issues results :
  issues_of (mergeArray results) = concat (map issues_of results).
Proof.
  unfold mergeArray.
  assert (map (fun r => match r with INVALID i => i | OK _ => [] end) results
          = map issues_of results) as -> by done.
  by destruct (concat _).
Qed.

Lemma enum_array_accepts values d p :
  issues_of (z_array (z_enum values) d p) = [] <->
  exists items, d = Some (JArray items) /\
    forall g, g ∈ items -> exists s, g = JString s /\ s ∈ values.
Proof.
  unfold z_array. split.
  - destruct d as [[]|]; try done. rewrite mergeArray_issues, enum_items_accepts. eauto.
  - intros (items & -> & H). by rewrite mergeArray_issues, enum_items_accepts.
Qed.

Lemma enum_array_output values d p :
  issues_of (z_array (z_enum values) d p) = [] -> z_array (z_enum values) d p = OK d.
Proof.
  unfold z_array. destruct d as [[]|]; try done.
  rewrite mergeArray_issues. intros H. unfold mergeArray.
  assert (map (fun r => match r with INVALID i => i | OK _ => [] end)
            (imap (fun i x => z_enum values (Some x) (p ++ [PIndex i])) items)
          = map issues_of (imap (fun i x => z_enum values (Some x) (p ++ [PIndex i])) items))
    as -> by done.
  rewrite H. by rewrite (enum_items_output _ _ _ H).
Qed.


Lemma schema_type_accepts fullYear f d p :
  issues_of (schema_type fullYear f d p) = [] <->
  match d with
  | Some v => Spec.constraint fullYear f v
  | None => f = Spec.Rating
  end.
Proof.
  destruct f; unfold schema_type, z_max, z_min, z_positive, z_int, z_number;
    cbn [app Spec.constraint].
  - rewrite z_string_accepts. destruct d as [v|].
    + split; intros [s Hs]; exists s; congruence.
    + split; [by intros [s Hs]|done].
  - rewrite number_parse_accepts. repeat setoid_rewrite Forall_cons.
    setoid_rewrite check_int_nil. setoid_rewrite check_min_nil.
    setoid_rewrite check_max_nil. setoid_rewrite isInteger_spec.
    split.
    + intros (n & -> & [z ->] & Hlo & Hhi & _). exists z.
      split; [done|]. by rewrite !Z2Qc_inj_le.
    + destruct d as [v|]; [|done]. intros (z & -> & Hlo & Hhi).
      exists (Qc_of_Z z). rewrite <- !Z2Qc_inj_le. eauto 10.
  - rewrite z_string_accepts. destruct d as [v|].
    + split; intros [s Hs]; exists s; congruence.
    + split; [by intros [s Hs]|done].
  - rewrite number_parse_accepts. repeat setoid_rewrite Forall_cons.
    setoid_rewrite check_int_nil. setoid_rewrite check_positive_nil.
    setoid_rewrite isInteger_spec.
    split.
    + intros (n & -> & [z ->] & Hlo & _). exists z.
      split; [done|]. by rewrite Z2Qc_inj_lt.
    + destruct d as [v|]; [|done]. intros (z & -> & Hlo).
      exists (Qc_of_Z z). rewrite <- Z2Qc_inj_lt. eauto 10.
  - rewrite enum_array_accepts. destruct d as [v|].
    + split; intros (items & Hs & H); exists items; split; congruence || done.
    + split; [by intros (items & Hs & H)|done].
  - destruct d as [v|]; unfold z_default.
    + rewrite number_parse_accepts. repeat setoid_rewrite Forall_cons.
      setoid_rewrite check_min_nil. setoid_rewrite check_max_nil.
      split.
      * intros (n & [= ->] & Hlo & Hhi & _). by exists n.
      * intros (q & -> & Hlo & Hhi). exists q. eauto.
    + split; [done|]. intros _. by vm_compute.
Qed.

Lemma schema_type_output fullYear f d p :
  issues_of (schema_type fullYear f d p) = [] ->
  schema_type fullYear f d p =
  OK (match f with
      | Spec.Rating => Some (default (JNumber (Qc_of_Z 5)) d)
      | _ => d
      end).
Proof.
  destruct f; unfold schema_type;
    auto using z_string_output, number_parse_output, enum_array_output.
  destruct d as [v|]; unfold z_default; [apply number_parse_output|].
  intros _. by vm_compute.
Qed.

Lemma partial_type_accepts fullYear f d p :
  issues_of (z_optional (schema_type fullYear f) d p) = [] <->
  match d with
  | Some v => Spec.constraint fullYear f v
  | None => True
  end.
Proof.
  destruct d as [v|]; [|done].
  unfold z_optional. apply schema_type_accepts.
Qed.

Lemma partial_type_output fullYear f d p :
  issues_of (z_optional (schema_type fullYear f) d p) = [] ->
  z_optional (schema_type fullYear f) d p = OK d.
Proof.
  destruct d as [v|]; [|done]. unfold z_optional. intros H.
  rewrite (schema_type_output _ _ _ _ H). by destruct f.
Qed.


Lemma enum_items_violations values (at_ : nat -> list PathSeg) items i :
  i ∈ concat (map issues_of (imap (fun k x => z_enum values (Some x) (at_ k)) items)) <->
  exists k g, items !! k = Some g /\ i ∈ issues_of (z_enum values (Some g) (at_ k)).
Proof.
  revert at_. induction items as [|x items IH]; intros at_.
  - simpl. split; [by intros ?%elem_of_nil|]. by intros (k & g & ? & _).
  - rewrite imap_cons. cbn [map concat]. rewrite elem_of_app, (IH (at_ ∘ S)). split.
    + intros [H|(k & g & Hk & H)]; [by exists 0%nat, x|by exists (S k), g].
    + intros ([|k] & g & Hk & H); simplify_eq/=; [by left|right; eauto].
Qed.

Lemma Issue_eta i : i = Issue (code i) (path i).
Proof. by destruct i. Qed.


Lemma check_issue_elem n p c i :
  i ∈ check_issue n p c <->
  path i = p /\
  match c with
  | check_int => isInteger n = false /\ code i = invalid_type "integer" "float"
  | check_min v true => (n < v)%Qc /\ code i = too_small v true
  | check_min v false => (n <= v)%Qc /\ code i = too_small v false
  | check_max v true => (v < n)%Qc /\ code i = too_big v true
  | check_max v false => (v <= n)%Qc /\ code i = too_big v false
  end.
Proof.
  rewrite (Issue_eta i) at 1.
  destruct c as [|v [|]|v [|]]; simpl;
    [destruct (isInteger n)|case_bool_decide..];
    rewrite ?elem_of_nil, ?list_elem_of_singleton;
    split; try done; try (intros [= -> ->]; done); try (intros (-> & _ & ->); done);
    try (by intros (_ & ? & _)).
Qed.

Lemma number_parse_elem s n p i :
  i ∈ issues_of (number_parse s (Some (JNumber n)) p) <->
  exists c, c ∈ s /\ i ∈ check_issue n p c.
Proof.
  unfold number_parse.
  assert (issues_of
            match concat (map (check_issue n p) s) with
            | [] => OK (Some (JNumber n))
            | z :: l => INVALID (z :: l)
            end = concat (map (check_issue n p) s)) as ->
    by by destruct (concat _).
  apply elem_of_concat_map.
Qed.


Lemma z_string_elem d p i :
  i ∈ issues_of (z_string d p) <->
  path i = p /\ code i = invalid_type "string" (getParsedType d) /\
  getParsedType d <> "string".
Proof.
  rewrite (Issue_eta i) at 1.
  destruct d as [[]|]; simpl; rewrite ?elem_of_nil, ?list_elem_of_singleton;
    split; try done; try (intros [= -> ->]; done); try (intros (-> & -> & _); done).
  by intros (_ & _ & ?).
Qed.

Lemma number_parse_type_elem s d p i :
  i ∈ issues_of (number_parse s d p) <->
  (path i = p /\ code i = invalid_type "number" (getParsedType d) /\
   getParsedType d <> "number") \/
  (exists n c, d = Some (JNumber n) /\ c ∈ s /\ i ∈ check_issue n p c).
Proof.
  destruct d as [[| |n| | |]|];
    try (rewrite (Issue_eta i) at 1; simpl; rewrite list_elem_of_singleton; split;
         [ intros [= -> ->]; by left
         | intros [(-> & -> & _)|(n & c & ? & _)]; done ]).
  rewrite number_parse_elem. split.
  - intros (c & Hc & Hi). right. eauto.
  - intros [(_ & _ & ?)|(n' & c & [= <-] & Hc & Hi)]; [done|eauto].
Qed.

Lemma z_enum_elem values g p i :
  i ∈ issues_of (z_enum values (Some g) p) <->
  path i = p /\
  ((exists s, g = JString s /\ (s ∉ values) /\ code i = invalid_enum_value values s) \/
   ((forall s, g <> JString s) /\
    code i = invalid_type (joinValues values) (getParsedType (Some g)))).
Proof.
  destruct i as [c pth]. cbn [code path].
  destruct g as [| | |s| |]; cbn [z_enum issues_of getParsedType];
    try (rewrite list_elem_of_singleton; split;
         [ intros [= -> ->]; split; [done|]; right; done
         | intros (-> & [(s & ? & _)|(_ & ->)]); done ]).
  case_bool_decide as Hin; cbn [issues_of].
  - split; [by intros ?%elem_of_nil|].
    intros (_ & [(s' & [= <-] & Hn & _)|(Hs & _)]); [done|by destruct (Hs s)].
  - rewrite list_elem_of_singleton. split.
    + intros [= -> ->]. split; [done|]. left. eauto.
    + intros (-> & [(s' & [= <-] & _ & ->)|(Hs & _)]); [done|by destruct (Hs s)].
Qed.

Lemma enum_array_elem values d p i :
  i ∈ issues_of (z_array (z_enum values) d p) <->
  (path i = p /\ code i = invalid_type "array" (getParsedType d) /\
   getParsedType d <> "array") \/
  (exists items k g, d = Some (JArray items) /\ items !! k = Some g /\
     i ∈ issues_of (z_enum values (Some g) (p ++ [PIndex k]))).
Proof.
  destruct d as [[| | | |items|]|];
    try (rewrite (Issue_eta i) at 1; simpl; rewrite list_elem_of_singleton; split;
         [ intros [= -> ->]; by left
         | intros [(-> & -> & _)|(? & ? & ? & ? & _)]; done ]).
  unfold z_array. cbv beta iota. rewrite mergeArray_issues, enum_items_violations. split.
  - intros (k & g & Hk & Hi). right. eauto 10.
  - intros [(_ & _ & ?)|(items' & k & g & [= <-] & Hk & Hi)]; [done|eauto].
Qed.


Lemma full_type_violations fullYear f d p i :
  i ∈ issues_of (schema_type fullYear f d p) <->
  exists rest, path i = p ++ rest /\
    Spec.field_violation Spec.required_full fullYear f d (code i) rest.
Proof.
  destruct f; unfold schema_type, z_max, z_min, z_positive, z_int, z_number;
    cbn [app].
  - rewrite z_string_elem. split.
    + intros (Hp & Hc & Ht). destruct d; type_issue Spec.Title.
    + intros (rest & Hp & Hv).
      inversion Hv; subst; rewrite ?app_nil_r in *; try absurd_field; done.
  - rewrite number_parse_type_elem. split.
    + intros [(Hp & Hc & Ht)|(n & c & -> & Hc & [Hp Hi]%check_issue_elem)].
      { destruct d; type_issue Spec.Year. }
      exists []. rewrite app_nil_r. split; [done|].
      repeat apply elem_of_cons in Hc as [->|Hc]; [..|by apply elem_of_nil in Hc];
        destruct Hi as [Hi ->].
      * apply Spec.not_an_integer; auto.
      * by apply Spec.year_before_1900.
      * by apply Spec.year_after_current.
    + intros (rest & Hp & Hv). inversion Hv; subst.
      * left. by rewrite app_nil_r in *.
      * left. by rewrite app_nil_r in *.
      * check_issue_of check_int check_issue_elem.
      * check_issue_of (check_min (Qc_of_Z 1900) true) check_issue_elem.
      * check_issue_of (check_max (Qc_of_Z fullYear) true) check_issue_elem.
  - rewrite z_string_elem. split.
    + intros (Hp & Hc & Ht). destruct d; type_issue Spec.Director.
    + intros (rest & Hp & Hv).
      inversion Hv; subst; rewrite ?app_nil_r in *; try absurd_field; done.
  - rewrite number_parse_type_elem. split.
    + intros [(Hp & Hc & Ht)|(n & c & -> & Hc & [Hp Hi]%check_issue_elem)].
      { destruct d; type_issue Spec.Duration. }
      exists []. rewrite app_nil_r. split; [done|].
      repeat apply elem_of_cons in Hc as [->|Hc]; [..|by apply elem_of_nil in Hc];
        destruct Hi as [Hi ->].
      * apply Spec.not_an_integer; auto.
      * by apply Spec.duration_not_positive.
    + intros (rest & Hp & Hv). inversion Hv; subst.
      * left. by rewrite app_nil_r in *.
      * left. by rewrite app_nil_r in *.
      * check_issue_of check_int check_issue_elem.
      * check_issue_of (check_min (Qc_of_Z 0) false) check_issue_elem.
  - rewrite enum_array_elem. split.
    + intros [(Hp & Hc & Ht)|(items & k & g & -> & Hk & Hi)].
      { destruct d; type_issue Spec.Genre. }
      apply z_enum_elem in Hi as [Hp [(s & -> & Hs & Hc)|[Hg Hc]]];
        exists [PIndex k]; (split; [done|]); rewrite Hc.
      * by apply Spec.genre_outside_enum.
      * by apply Spec.genre_not_text.
    + intros (rest & Hp & Hv). inversion Hv; subst.
      * left. by rewrite app_nil_r in *.
      * left. by rewrite app_nil_r in *.
      * absurd_field.
      * right. eexists _, _, _. split; [done|]. split; [done|].
        apply z_enum_elem. split; [done|]. left. eauto.
      * right. eexists _, _, _. split; [done|]. split; [done|].
        apply z_enum_elem. split; [done|]. by right.
  - destruct d as [v|]; unfold z_default.
    + rewrite number_parse_type_elem. split.
      * intros [(Hp & Hc & Ht)|(n & c & [= ->] & Hc & [Hp Hi]%check_issue_elem)].
        { type_issue Spec.Rating. }
        exists []. rewrite app_nil_r. split; [done|].
        repeat apply elem_of_cons in Hc as [->|Hc]; [..|by apply elem_of_nil in Hc];
          destruct Hi as [Hi ->].
        -- by apply Spec.rating_below_0.
        -- by apply Spec.rating_above_10.
      * intros (rest & Hp & Hv). inversion Hv; subst.
        -- left. by rewrite app_nil_r in *.
        -- absurd_field.
        -- check_issue_of (check_min (Qc_of_Z 0) true) check_issue_elem.
        -- check_issue_of (check_max (Qc_of_Z 10) true) check_issue_elem.
    + split.
      * vm_compute. by intros ?%elem_of_nil.
      * intros (rest & Hp & Hv). by inversion Hv.
Qed.


Lemma field_violation_present r1 r2 currentYear f v c rest :
  Spec.field_violation r1 currentYear f (Some v) c rest ->
  Spec.field_violation r2 currentYear f (Some v) c rest.
Proof. inversion 1; subst; by constructor. Qed.

Lemma partial_type_violations fullYear f d p i :
  i ∈ issues_of (z_optional (schema_type fullYear f) d p) <->
  exists rest, path i = p ++ rest /\
    Spec.field_violation Spec.required_partial fullYear f d (code i) rest.
Proof.
  destruct d as [v|]; unfold z_optional.
  - rewrite full_type_violations.
    split; intros (rest & Hp & Hv); exists rest;
      eauto using field_violation_present.
  - split; [by intros ?%elem_of_nil|].
    intros (rest & Hp & Hv). by inversion Hv.
Qed.

Lemma all_fields f : f ∈ Spec.fields.
Proof.
  destruct f; unfold Spec.fields;
    repeat first [ apply list_elem_of_here | apply list_elem_of_further ].
Qed.

Lemma name_inj f g : Spec.name f = Spec.name g -> f = g.
Proof. by destruct f, g. Qed.

(** An object schema over the six fields, on an object. *)
Lemma safeParse_fields (t : Spec.Field -> ZodType) props :
  safeParse (object_parse (fields_schema t))
    (Some (JObject props)) =
  match concat (map (fun f => issues_of (field_result t props f)) Spec.fields) with
  | [] => SafeParseSuccess (Some (JObject (list_to_map
            (omap (fun f => pair (Spec.name f) <$> output_of (field_result t props f))
               Spec.fields))))
  | issues => SafeParseError issues
  end.
Proof.
  unfold safeParse, fields_schema. rewrite object_parse_object.
  cbn [map omap Spec.fields fst snd app concat field_result].
  by destruct (_ ++ _).
Qed.

Lemma safeParse_fields_success t props :
  success
    (safeParse (object_parse (fields_schema t))
       (Some (JObject props))) = true <->
  forall f, issues_of (field_result t props f) = [].
Proof.
  rewrite safeParse_fields.
  transitivity
    (concat (map (fun f => issues_of (field_result t props f)) Spec.fields) = []).
  - by destruct (concat _).
  - rewrite concat_map_nil, Forall_forall. split; [|by auto].
    intros H f. apply H, all_fields.
Qed.

Lemma safeParse_fields_error t props issues i :
  safeParse (object_parse (fields_schema t))
    (Some (JObject props)) = SafeParseError issues ->
  i ∈ issues <-> exists f, i ∈ issues_of (field_result t props f).
Proof.
  rewrite safeParse_fields. intros H.
  assert (issues =
    concat (map (fun f => issues_of (field_result t props f)) Spec.fields)) as ->.
  { destruct (concat _); by simplify_eq. }
  rewrite elem_of_concat_map. split.
  - intros (f & _ & Hi). eauto.
  - intros (f & Hi). eauto using all_fields.
Qed.


Lemma fields_NoDup : NoDup Spec.fields.
Proof.
  unfold Spec.fields.
  repeat (constructor;
    [ intros H; repeat (apply elem_of_cons in H as [H|H]; [discriminate|]);
      by apply elem_of_nil in H | ]).
  constructor.
Qed.

Lemma fields_output_lookup (out : Spec.Field -> option JValue) (l : list Spec.Field) k v :
  NoDup l ->
  (list_to_map (omap (fun f => pair (Spec.name f) <$> out f) l) : gmap string JValue)
    !! k = Some v <->
  exists f, f ∈ l /\ Spec.name f = k /\ out f = Some v.
Proof.
  induction l as [|f l IH]; intros Hl.
  - simpl. rewrite lookup_empty. split; [done|]. by intros (f & ?%elem_of_nil & _).
  - apply NoDup_cons in Hl as [Hf Hl]. cbn [omap list_omap].
    destruct (out f) as [w|] eqn:Hout; cbn [fmap option_fmap option_map list_to_map foldr].
    + cbn [uncurry fst snd]. rewrite lookup_insert_Some, (IH Hl). split.
      * intros [[<- <-]|[Hne (g & Hg & <- & Hv)]].
        -- exists f. split; [by left|done].
        -- exists g. split; [by right|done].
      * intros (g & [->|Hg]%elem_of_cons & <- & Hv).
        -- left. split; congruence.
        -- right. split; [|by eauto].
           intros ?%name_inj. by subst.
    + rewrite (IH Hl). split.
      * intros (g & Hg & <- & Hv). exists g. split; [by right|done].
      * intros (g & [->|Hg]%elem_of_cons & <- & Hv); [congruence|eauto].
Qed.

Lemma supplied_lookup props k v :
  Spec.supplied props !! k = Some v <->
  exists f, Spec.name f = k /\ props !! Spec.name f = Some v.
Proof.
  unfold Spec.supplied. rewrite map_lookup_filter_Some. cbn [fst].
  rewrite list_elem_of_fmap. split.
  - intros [Hk (f & -> & _)]. eauto.
  - intros (f & <- & Hv). split; [done|]. exists f. split; [done|apply all_fields].
Qed.

Lemma supplied_field props f : Spec.supplied props !! Spec.name f = props !! Spec.name f.
Proof.
  apply option_eq. intros v. rewrite supplied_lookup. split; [|by eauto].
  by intros (g & ->%name_inj & Hv).
Qed.

Lemma supplied_other props k : (forall f, Spec.name f <> k) -> Spec.supplied props !! k = None.
Proof.
  intros Hk. apply eq_None_not_Some. intros [v (f & Hf & _)%supplied_lookup].
  by destruct (Hk f).
Qed.

End ZodFacts.

(** Facts shared by the two validators: an object schema over the six
    fields whose field types report under the path they are given. *)
Section Validators.
Variable t : Spec.Field -> ZodType.
Hypothesis t_path : forall f d p i,
  i ∈ issues_of (t f d p) -> exists rest, path i = p ++ rest.

Lemma validate_not_object candidate :
  (exists props, candidate = Some (JObject props)) \/
  safeParse (object_parse (fields_schema t)) candidate =
    SafeParseError [Issue (invalid_type "object" (getParsedType candidate)) []].
Proof using Type.
  destruct candidate as [[]|]; eauto.
Qed.

Lemma validate_reports props issues f :
  safeParse (object_parse (fields_schema t)) (Some (JObject props)) = SafeParseError issues ->
  Spec.reports issues f <-> issues_of (field_result t props f) <> [].
Proof using t_path.
  intros Herr. unfold Spec.reports. split.
  - intros (i & Hi & Hhead).
    apply (safeParse_fields_error _ _ _ _ Herr) in Hi as [g Hi].
    destruct (t_path _ _ _ _ Hi) as [rest Hp]. rewrite Hp in Hhead.
    injection Hhead as ->%name_inj. intros Hnil.
    rewrite Hnil in Hi. by apply elem_of_nil in Hi.
  - intros Hne. destruct (issues_of (field_result t props f)) as [|i l] eqn:Hf; [done|].
    exists i. assert (i ∈ issues_of (field_result t props f)) as Hi
      by (rewrite Hf; apply list_elem_of_here).
    split.
    + apply (safeParse_fields_error _ _ _ _ Herr). eauto.
    + destruct (t_path _ _ _ _ Hi) as [rest ->]. done.
Qed.
End Validators.

Section ValidateMovie.
Variable fullYear : Z.

Lemma validateMovie_fields candidate :
  validateMovie fullYear candidate =
  safeParse
    (object_parse (fields_schema (schema_type fullYear)))
    candidate.
Proof using Type. reflexivity. Qed.

Lemma validateMoviePartial_fields candidate :
  validateMoviePartial fullYear candidate =
  safeParse
    (object_parse (fields_schema (fun f => z_optional (schema_type fullYear f))))
    candidate.
Proof using Type. reflexivity. Qed.

Lemma schema_type_path f d p i :
  i ∈ issues_of (schema_type fullYear f d p) -> exists rest, path i = p ++ rest.
Proof using Type. intros (rest & Hp & _)%full_type_violations. eauto. Qed.

Lemma partial_type_path f d p i :
  i ∈ issues_of (z_optional (schema_type fullYear f) d p) ->
  exists rest, path i = p ++ rest.
Proof using Type. intros (rest & Hp & _)%partial_type_violations. eauto. Qed.

Lemma validateMovie_success candidate :
  success (validateMovie fullYear candidate) = true <-> Spec.full_ok fullYear candidate.
Proof using Type.
  destruct candidate as [[| | | | |props]|];
    try (split; [done|by intros (props & [=] & _)]).
  rewrite validateMovie_fields, safeParse_fields_success.
  unfold field_result. setoid_rewrite schema_type_accepts.
  unfold Spec.full_ok. split.
  - intros H. exists props. split; [done|]. split.
    + intros f Hf. specialize (H f).
      destruct (props !! Spec.name f) as [v|]; [eauto|done].
    + intros v Hv. specialize (H Spec.Rating). by rewrite Hv in H.
  - intros (props' & [= <-] & Hreq & Hrating) f.
    destruct f;
      try (by edestruct Hreq as (v & -> & Hc); [|exact Hc]).
    destruct (props !! Spec.name Spec.Rating) as [v|] eqn:Hv; [by apply Hrating|done].
Qed.

Lemma validateMoviePartial_success candidate :
  success (validateMoviePartial fullYear candidate) = true <->
  Spec.partial_ok fullYear candidate.
Proof using Type.
  destruct candidate as [[| | | | |props]|];
    try (split; [done|by intros (props & [=] & _)]).
  rewrite validateMoviePartial_fields, safeParse_fields_success.
  unfold field_result. setoid_rewrite partial_type_accepts.
  unfold Spec.partial_ok. split.
  - intros H. exists props. split; [done|].
    intros f v Hv. specialize (H f). by rewrite Hv in H.
  - intros (props' & [= <-] & H) f.
    destruct (props !! Spec.name f) as [v|] eqn:Hv; [by apply H|done].
Qed.

Lemma validateMovie_issues props issues i :
  validateMovie fullYear (Some (JObject props)) = SafeParseError issues ->
  i ∈ issues <-> Spec.violation Spec.required_full fullYear props i.
Proof using Type.
  rewrite validateMovie_fields. intros Herr.
  rewrite (safeParse_fields_error _ _ _ _ Herr). unfold field_result, Spec.violation.
  by setoid_rewrite full_type_violations.
Qed.

Lemma validateMoviePartial_issues props issues i :
  validateMoviePartial fullYear (Some (JObject props)) = SafeParseError issues ->
  i ∈ issues <-> Spec.violation Spec.required_partial fullYear props i.
Proof using Type.
  rewrite validateMoviePartial_fields. intros Herr.
  rewrite (safeParse_fields_error _ _ _ _ Herr). unfold field_result, Spec.violation.
  by setoid_rewrite partial_type_violations.
Qed.

Lemma validateMovie_reports props issues f :
  validateMovie fullYear (Some (JObject props)) = SafeParseError issues ->
  Spec.offends_full fullYear props f <-> Spec.reports issues f.
Proof using Type.
  rewrite validateMovie_fields. intros Herr.
  rewrite (validate_reports _ schema_type_path _ _ _ Herr).
  unfold field_result, Spec.offends_full. rewrite schema_type_accepts.
  destruct (props !! Spec.name f); done.
Qed.

Lemma validateMoviePartial_reports props issues f :
  validateMoviePartial fullYear (Some (JObject props)) = SafeParseError issues ->
  Spec.offends_partial fullYear props f <-> Spec.reports issues f.
Proof using Type.
  rewrite validateMoviePartial_fields. intros Herr.
  rewrite (validate_reports _ partial_type_path _ _ _ Herr).
  unfold field_result, Spec.offends_partial. rewrite partial_type_accepts.
  destruct (props !! Spec.name f); [done|]. split; [done|by intros H].
Qed.

Lemma validateMoviePartial_data props data :
  validateMoviePartial fullYear (Some (JObject props)) = SafeParseSuccess data ->
  data = Some (JObject (Spec.supplied props)).
Proof using Type.
  rewrite validateMoviePartial_fields, safeParse_fields.
  destruct (concat _) eqn:Hnil; [|done]. intros [= <-]. do 2 f_equal.
  apply concat_map_nil in Hnil. rewrite Forall_forall in Hnil.
  apply map_eq. intros k. apply option_eq. intros v.
  rewrite (fields_output_lookup
             (fun f => output_of
                (field_result (fun f => z_optional (schema_type fullYear f)) props f))
             _ _ _ fields_NoDup), supplied_lookup.
  split.
  - intros (f & Hf & <- & Hv). exists f. split; [done|].
    unfold field_result in Hv.
    by rewrite (partial_type_output _ _ _ _ (Hnil f Hf)) in Hv.
  - intros (f & <- & Hv). exists f. split; [apply all_fields|]. split; [done|].
    unfold field_result.
    by rewrite (partial_type_output _ _ _ _ (Hnil f (all_fields f))).
Qed.

Lemma validateMovie_data props data :
  validateMovie fullYear (Some (JObject props)) = SafeParseSuccess data ->
  data = Some (JObject (Spec.normalized props)).
Proof using Type.
  rewrite validateMovie_fields, safeParse_fields.
  destruct (concat _) eqn:Hnil; [|done]. intros [= <-]. do 2 f_equal.
  apply concat_map_nil in Hnil. rewrite Forall_forall in Hnil.
  assert (forall f, output_of (field_result (schema_type fullYear) props f) =
            match f with
            | Spec.Rating =>
                Some (default (JNumber (Qc_of_Z 5)) (props !! Spec.name f))
            | _ => props !! Spec.name f
            end) as Hout.
  { intros f. unfold field_result.
    by rewrite (schema_type_output _ _ _ _ (Hnil f (all_fields f))). }
  apply map_eq. intros k. apply option_eq. intros v.
  rewrite (fields_output_lookup
             (fun f => output_of (field_result (schema_type fullYear) props f))
             _ _ _ fields_NoDup).
  unfold Spec.normalized. rewrite lookup_insert_Some, supplied_lookup.
  split.
  - intros (f & _ & <- & Hv). rewrite Hout in Hv.
    destruct f; try (right; split; [done|]; eauto; fail).
    left. by simplify_eq.
  - intros [[<- <-]|[Hk (f & <- & Hv)]].
    + exists Spec.Rating. split; [apply all_fields|]. split; [done|].
      by rewrite Hout.
    + exists f. split; [apply all_fields|]. split; [done|].
      rewrite Hout. by destruct f.
Qed.
End ValidateMovie.

(* ===================================================================== *)
(** ** Facts about the array operations and the store                     *)
(* ===================================================================== *)

Section ArrayFacts.
Context {A : Type} (p : A -> bool).

Lemma array_find_None l :
  array_find p l = None <-> forall x, x ∈ l -> p x = false.
Proof using Type.
  induction l as [|a l IH]; simpl.
  - split; [|done]. by intros _ x ?%elem_of_nil.
  - destruct (p a) eqn:Ha.
    + split; [done|]. intros H. specialize (H a (list_elem_of_here _ _)). congruence.
    + rewrite IH. split.
      * intros H x [->|Hx]%elem_of_cons; auto.
      * intros H x Hx. apply H. by right.
Qed.

Lemma array_findIndex_find l :
  array_findIndex p l = None <-> array_find p l = None.
Proof using Type.
  induction l as [|a l IH]; simpl; [done|].
  destruct (p a); [done|].
  rewrite <- IH. by destruct (array_findIndex p l).
Qed.

Lemma array_findIndex_Some l i :
  array_findIndex p l = Some i ->
  exists l1 x l2, l = l1 ++ x :: l2 /\ length l1 = i /\ p x = true /\
    forall y, y ∈ l1 -> p y = false.
Proof using Type.
  revert i. induction l as [|a l IH]; intros i; simpl; [done|].
  destruct (p a) eqn:Ha.
  - intros [= <-]. exists [], a, l. repeat split; [done|].
    by intros y ?%elem_of_nil.
  - destruct (array_findIndex p l) as [j|]; [|done]. intros [= <-].
    destruct (IH j eq_refl) as (l1 & x & l2 & -> & Hlen & Hx & Hl1).
    exists (a :: l1), x, l2. repeat split; [by simpl; f_equal|done|].
    intros y [->|Hy]%elem_of_cons; auto.
Qed.

Lemma array_findIndex_is_Some l x :
  x ∈ l -> p x = true -> is_Some (array_findIndex p l).
Proof using Type.
  intros Hx Hp. destruct (array_findIndex p l) eqn:H; [done|].
  rewrite array_findIndex_find, array_find_None in H. rewrite (H x Hx) in Hp. done.
Qed.

Lemma array_find_app_fresh l x :
  array_find p l = None -> p x = true -> array_find p (l ++ [x]) = Some x.
Proof using Type.
  induction l as [|a l IH]; simpl; intros Hl Hx.
  - by rewrite Hx.
  - destruct (p a); [done|]. auto.
Qed.
End ArrayFacts.

Lemma id_is_has_id id movie : id_is id movie = true <-> Spec.has_id id movie.
Proof.
  unfold id_is, Spec.has_id. destruct (movie !! "id") as [[]|]; try done.
  rewrite String.eqb_eq. split; congruence.
Qed.

Lemma absent_find id ms :
  ~ Spec.present id ms <-> array_find (id_is id) ms = None.
Proof.
  rewrite array_find_None. unfold Spec.present. split.
  - intros H m Hm. destruct (id_is id m) eqn:E; [|done].
    destruct H. exists m. by rewrite <- id_is_has_id.
  - intros H (m & Hm & Hid%id_is_has_id). rewrite (H m Hm) in Hid. done.
Qed.

Lemma present_findIndex id ms :
  Spec.present id ms -> is_Some (array_findIndex (id_is id) ms).
Proof.
  intros (m & Hm & Hid%id_is_has_id). eauto using array_findIndex_is_Some.
Qed.

(* ===================================================================== *)
(** ** The handlers, case by case                                         *)
(* ===================================================================== *)

Lemma get_movie_not_found req ms :
  array_find (id_is (params_id req)) ms = None ->
  serve (get_movie_handler req) ms =
  Normal tt {| movies := ms;
               res := {| statusCode := 400; resHeaders := ∅;
                         sent := Some {| status := 400; headers := ∅;
                                         payload := text "<h1>Movie not found</h1>" |} |} |}.
Proof. intros H. unfold get_movie_handler. run_handler. by rewrite H. Qed.

Lemma get_movie_found req ms movie :
  array_find (id_is (params_id req)) ms = Some movie ->
  serve (get_movie_handler req) ms =
  Normal tt {| movies := ms;
               res := {| statusCode := 200; resHeaders := ∅;
                         sent := Some {| status := 200; headers := ∅;
                                         payload := json (JObject movie) |} |} |}.
Proof. intros H. unfold get_movie_handler. run_handler. by rewrite H. Qed.

Lemma post_movies_valid fullYear uuid req ms data :
  validateMovie fullYear (body req) = SafeParseSuccess data ->
  let newMovie := spread data ∪ {[ "id" := JString uuid ]} in
  serve (post_movies_handler fullYear uuid req) ms =
  Normal tt {| movies := ms ++ [newMovie];
               res := {| statusCode := 201; resHeaders := ∅;
                         sent := Some {| status := 201; headers := ∅;
                                         payload := json (JObject newMovie) |} |} |}.
Proof. intros H. unfold post_movies_handler. run_handler. by rewrite H. Qed.

Lemma post_movies_invalid fullYear uuid req ms error :
  validateMovie fullYear (body req) = SafeParseError error ->
  serve (post_movies_handler fullYear uuid req) ms =
  Throw {| movies := ms ++ [ {[ "id" := JString uuid ]} ];
           res := {| statusCode := 201; resHeaders := ∅;
                     sent := Some {| status := 400; headers := ∅;
                                     payload := json_error error |} |} |}.
Proof.
  intros H. unfold post_movies_handler. run_handler. rewrite H. cbn.
  by rewrite (left_id_L ∅ (∪)).
Qed.

Lemma cors_fresh req ms :
  cors req {| movies := ms; res := fresh_res |} =
  Normal tt {| movies := ms;
               res := {| statusCode := 200;
                         resHeaders :=
                           Spec.authorize ACCEPTED_ORIGINS false (origin_header req);
                         sent := None |} |}.
Proof.
  unfold cors, when, array_includes, Spec.authorize.
  destruct (origin_header req) as [o|]; [|done]. cbn [fmap option_fmap option_map].
  case_bool_decide; [|done]. cbn. by rewrite insert_empty.
Qed.

Lemma patch_movie_valid fullYear req ms data :
  validateMoviePartial fullYear (body req) = SafeParseSuccess data ->
  serve (patch_movie_handler fullYear req) ms =
  match array_findIndex (id_is (params_id req)) ms with
  | None =>
      Normal tt {| movies := ms;
                   res := {| statusCode := 404; resHeaders := ∅;
                             sent := Some {| status := 404; headers := ∅;
                                             payload := message "Movie not found" |} |} |}
  | Some movieIndex =>
      let updatedMovie := spread data ∪ spread (JObject <$> ms !! movieIndex) in
      Normal tt {| movies := <[movieIndex := updatedMovie]> ms;
                   res := {| statusCode := 201; resHeaders := ∅;
                             sent := Some {| status := 201; headers := ∅;
                                             payload := json (JObject updatedMovie) |} |} |}
  end.
Proof.
  intros H. unfold patch_movie_handler. run_handler. rewrite H. cbn [success negb].
  run_handler. by destruct (array_findIndex _ _).
Qed.

Lemma patch_movie_invalid fullYear req ms error :
  validateMoviePartial fullYear (body req) = SafeParseError error ->
  serve (patch_movie_handler fullYear req) ms =
  let sent400 := Some {| status := 400; headers := ∅; payload := json_error error |} in
  match array_findIndex (id_is (params_id req)) ms with
  | None =>
      Throw {| movies := ms;
               res := {| statusCode := 404; resHeaders := ∅; sent := sent400 |} |}
  | Some movieIndex =>
      Throw {| movies := <[movieIndex := spread (JObject <$> ms !! movieIndex)]> ms;
               res := {| statusCode := 201; resHeaders := ∅; sent := sent400 |} |}
  end.
Proof.
  intros H. unfold patch_movie_handler. run_handler. rewrite H.
  cbn [success negb error_of data_of]. cbn.
  destruct (array_findIndex _ _); [|done]. cbn.
  by rewrite (left_id_L ∅ (∪)).
Qed.

Lemma delete_movie_run req ms :
  let granted := Spec.authorize ACCEPTED_ORIGINS false (origin_header req) in
  serve (delete_movie_handler req) ms =
  match array_findIndex (id_is (params_id req)) ms with
  | None =>
      Normal tt {| movies := ms;
                   res := {| statusCode := 404; resHeaders := granted;
                             sent := Some {| status := 404; headers := granted;
                                             payload := message "Movie not found" |} |} |}
  | Some movieIndex =>
      Normal tt {| movies := delete movieIndex ms;
                   res := {| statusCode := 200; resHeaders := granted;
                             sent := Some {| status := 200; headers := granted;
                                             payload := message "Movie deleted" |} |} |}
  end.
Proof.
  unfold delete_movie_handler. run_handler. rewrite cors_fresh. cbn [movies].
  by destruct (array_findIndex _ _).
Qed.

Lemma get_movies_run req ms :
  let granted := Spec.authorize ACCEPTED_ORIGINS false (origin_header req) in
  let respond l :=
    Normal tt {| movies := ms;
                 res := {| statusCode := 200; resHeaders := granted;
                           sent := Some {| status := 200; headers := granted;
                                           payload := movies_json l |} |} |} in
  serve (get_movies_handler req) ms =
  if truthy (query_genre req) then
    match array_filter filter_callback ms with
    | Some filteredMovies => respond filteredMovies
    | None =>
        Throw {| movies := ms;
                 res := {| statusCode := 200; resHeaders := granted; sent := None |} |}
    end
  else respond ms.
Proof.
  unfold get_movies_handler. run_handler. rewrite cors_fresh. cbn [movies].
  destruct (truthy _); [|done]. by destruct (array_filter _ _).
Qed.

Lemma options_movie_run req ms :
  let granted := Spec.authorize ACCEPTED_ORIGINS true (origin_header req) in
  serve (options_movie_handler req) ms =
  Normal tt {| movies := ms;
               res := {| statusCode := 200; resHeaders := granted;
                         sent := Some {| status := 200; headers := granted;
                                         payload := status_body 200 |} |} |}.
Proof.
  unfold options_movie_handler. run_handler.
  unfold array_includes, truthy, Spec.authorize.
  destruct (origin_header req) as [o|]; [|done].
  destruct (String.eqb o EmptyString) eqn:Ho.
  - apply String.eqb_eq in Ho as ->. cbn [negb].
    by assert (bool_decide (EmptyString ∈ ACCEPTED_ORIGINS) = false) as -> by done.
  - cbn [negb fmap option_fmap option_map]. case_bool_decide; [|done].
    cbn. do 4 f_equal.
    all: apply map_eq; intros k; apply option_eq; intros v;
      rewrite !lookup_insert_Some, !lookup_empty; 
      split; intros H'; repeat destruct H' as [H'|H']; destruct_and?; simplify_eq; eauto 10.
Qed.

Lemma genre_callback_text g : genre_callback (JString g) = Some true.
Proof. unfold genre_callback. by rewrite String.eqb_refl. Qed.

(** The genre filter keeps a movie as soon as its first genre is text, and
    the answer of the list handler is the same for any two non-empty tags. *)
Lemma filter_callback_text movie g rest :
  movie !! "genre" = Some (JArray (JString g :: rest)) ->
  filter_callback movie = Some true.
Proof.
  intros H. unfold filter_callback. rewrite H. cbn [array_some].
  by rewrite genre_callback_text.
Qed.

Lemma get_movies_ignores_tag req req' ms :
  origin_header req = origin_header req' ->
  truthy (query_genre req) = true ->
  truthy (query_genre req') = true ->
  serve (get_movies_handler req) ms = serve (get_movies_handler req') ms.
Proof.
  intros Horigin Htag Htag'. by rewrite !get_movies_run, Horigin, Htag, Htag'.
Qed.

(** The two examples of full validation: a movie of 1899 is refused for its
    year, a movie of 2000 without rating is accepted with the rating 5 (the
    schema built in 2024). *)
Example validateFull_year_1899 :
  validateMovie 2024
    (Some (JObject {[ "title" := JString "X"; "year" := JNumber (Qc_of_Z 1899);
                      "director" := JString "D"; "duration" := JNumber (Qc_of_Z 90);
                      "genre" := JArray [JString "drama"] ]})) =
  SafeParseError [Issue (too_small (Qc_of_Z 1900) true) [PKey "year"]].
Proof. reflexivity. Qed.

Example validateFull_rating_defaulted :
  validateMovie 2024
    (Some (JObject {[ "title" := JString "X"; "year" := JNumber (Qc_of_Z 2000);
                      "director" := JString "D"; "duration" := JNumber (Qc_of_Z 90);
                      "genre" := JArray [JString "drama"] ]})) =
  SafeParseSuccess
    (Some (JObject {[ "title" := JString "X"; "year" := JNumber (Qc_of_Z 2000);
                      "director" := JString "D"; "duration" := JNumber (Qc_of_Z 90);
                      "genre" := JArray [JString "drama"];
                      "rating" := JNumber (Qc_of_Z 5) ]})).
Proof. by vm_compute. Qed.

(** Every violation of a candidate is listed, not the first only: a year
    that is neither an integer nor in range and a missing title give three
    issues beside those of the other missing fields. *)
Example validateFull_lists_all :
  validateMovie 2024
    (Some (JObject {[ "year" := JNumber (Q2Qc (3 # 2));
                      "director" := JString "D"; "duration" := JNumber (Qc_of_Z 90);
                      "genre" := JArray [JString "drama"; JString "western"] ]})) =
  SafeParseError
    [ Issue (invalid_type "string" "undefined") [PKey "title"];
      Issue (invalid_type "integer" "float") [PKey "year"];
      Issue (too_small (Qc_of_Z 1900) true) [PKey "year"];
      Issue (invalid_enum_value genres "western") [PKey "genre"; PIndex 1] ].
Proof. by vm_compute. Qed.

(** The origin check on a list request from an accepted origin, and from
    another one. *)
Example get_movies_accepted_origin :
  headers <$> response_of
    (serve (get_movies_handler
              {| origin_header := Some "http://localhost:8080"; query_genre := None;
                 params_id := EmptyString; body := None |}) []) =
  Some {[ "Access-Control-Allow-Origin" := "http://localhost:8080" ]}.
Proof. by vm_compute. Qed.

Example get_movies_other_origin :
  headers <$> response_of
    (serve (get_movies_handler
              {| origin_header := Some "http://evil.example"; query_genre := None;
                 params_id := EmptyString; body := None |}) []) =
  Some ∅.
Proof. by vm_compute. Qed.

(* ===================================================================== *)
(** ** The claims                                                         *)
(* ===================================================================== *)

(** C1. The claim: a create request whose body fails full validation leaves
    the store unchanged. The handler sends the 400 response and goes on: on
    the empty body [{}] it appends the record [{id: uuid}], which has none of
    the required fields, and its second response ends in an exception. The
    general form of this evaluation is [post_movies_invalid]. *)
Theorem post_invalid_body_reaches_store :
  let req := {| origin_header := None; query_genre := None;
                params_id := EmptyString; body := Some (JObject ∅) |} in
  let after := serve (post_movies_handler 2024 "uuid-1" req) [] in
  success (validateMovie 2024 (body req)) = false /\
  store_after after = [ {[ "id" := JString "uuid-1" ]} ] /\
  status <$> response_of after = Some 400%nat /\
  threw after = true.
Proof. by vm_compute. Qed.

(** C2. The claim: the list filtered by genre holds exactly the resources
    with a genre equal to the query tag, case apart. The callback compares
    each genre with itself, so a movie whose only genre is [Drama] is returned
    for the tag [action], where [Spec.listByGenre] returns nothing. *)
Theorem genre_filter_returns_non_matching :
  let movie : gmap string JValue :=
    {[ "id" := JString "m1"; "genre" := JArray [JString "Drama"] ]} in
  let req := {| origin_header := None; query_genre := Some "action";
                params_id := EmptyString; body := None |} in
  Spec.listByGenre "action" [movie] = [] /\
  payload <$> response_of (serve (get_movies_handler req) [movie]) =
    Some (movies_json [movie]).
Proof. by vm_compute. Qed.

(** C4. For an id that no stored resource has: the get handler answers 400
    with the not-found page; the patch handler answers 404 with the message
    [Movie not found] when the body passes partial validation (and the 400 of
    the validation error otherwise); the delete handler answers 404 with the
    same message; the three leave the collection as it was. *)
Theorem absent_id_reports_not_found fullYear req ms :
  ~ Spec.present (params_id req) ms ->
  serve (get_movie_handler req) ms =
    Normal tt {| movies := ms;
                 res := {| statusCode := 400; resHeaders := ∅;
                           sent := Some {| status := 400; headers := ∅;
                                           payload := text "<h1>Movie not found</h1>" |} |} |} /\
  store_after (serve (patch_movie_handler fullYear req) ms) = ms /\
  response_of (serve (patch_movie_handler fullYear req) ms) =
    Some match validateMoviePartial fullYear (body req) with
         | SafeParseSuccess _ =>
             {| status := 404; headers := ∅; payload := message "Movie not found" |}
         | SafeParseError error =>
             {| status := 400; headers := ∅; payload := json_error error |}
         end /\
  store_after (serve (delete_movie_handler req) ms) = ms /\
  response_of (serve (delete_movie_handler req) ms) =
    Some {| status := 404;
            headers := Spec.authorize ACCEPTED_ORIGINS false (origin_header req);
            payload := message "Movie not found" |}.
Proof.
  intros Habsent%absent_find.
  assert (array_findIndex (id_is (params_id req)) ms = None) as Hindex
    by by apply array_findIndex_find.
  split; [by apply get_movie_not_found|].
  rewrite delete_movie_run, Hindex.
  destruct (validateMoviePartial fullYear (body req)) as [data|error] eqn:Hresult.
  - by rewrite (patch_movie_valid _ _ _ _ Hresult), Hindex.
  - by rewrite (patch_movie_invalid _ _ _ _ Hresult), Hindex.
Qed.

(** [absent_id_reports_not_found] at the id 7, absent from a store of one
    movie, with an empty patch. *)
Lemma absent_id_reports_not_found_witness :
  let req := {| origin_header := None; query_genre := None; params_id := "7";
                body := Some (JObject ∅) |} in
  let ms : list (gmap string JValue) := [ {[ "id" := JString "1" ]} ] in
  ~ Spec.present (params_id req) ms /\
  serve (get_movie_handler req) ms =
    Normal tt {| movies := ms;
                 res := {| statusCode := 400; resHeaders := ∅;
                           sent := Some {| status := 400; headers := ∅;
                                           payload := text "<h1>Movie not found</h1>" |} |} |} /\
  store_after (serve (patch_movie_handler 2024 req) ms) = ms /\
  response_of (serve (patch_movie_handler 2024 req) ms) =
    Some {| status := 404; headers := ∅; payload := message "Movie not found" |} /\
  store_after (serve (delete_movie_handler req) ms) = ms /\
  response_of (serve (delete_movie_handler req) ms) =
    Some {| status := 404; headers := ∅; payload := message "Movie not found" |}.
Proof.
  intros req ms.
  assert (~ Spec.present (params_id req) ms) as Habsent.
  { apply absent_find. reflexivity. }
  split; [exact Habsent|].
  exact (absent_id_reports_not_found 2024 req ms Habsent).
Defined.

(** C7. For an id that a stored resource has, the delete handler removes one
    resource, the first with that id; the resources before and after it keep
    their order; the collection is one shorter; the answer is 200 with the
    message [Movie deleted]. *)
Theorem delete_removes_exactly_one req ms :
  Spec.present (params_id req) ms ->
  exists before movie rest,
    ms = before ++ movie :: rest /\
    Spec.has_id (params_id req) movie /\
    (forall m, m ∈ before -> ~ Spec.has_id (params_id req) m) /\
    store_after (serve (delete_movie_handler req) ms) = before ++ rest /\
    threw (serve (delete_movie_handler req) ms) = false /\
    response_of (serve (delete_movie_handler req) ms) =
      Some {| status := 200;
              headers := Spec.authorize ACCEPTED_ORIGINS false (origin_header req);
              payload := message "Movie deleted" |} /\
    S (length (store_after (serve (delete_movie_handler req) ms))) = length ms.
Proof.
  intros [i Hi]%present_findIndex.
  destruct (array_findIndex_Some _ _ _ Hi) as (before & movie & rest & -> & Hlen & Hid & Hbefore).
  exists before, movie, rest. split; [done|].
  split; [by apply id_is_has_id|]. split.
  { intros m Hm Hid'%id_is_has_id. by rewrite (Hbefore m Hm) in Hid'. }
  rewrite delete_movie_run, Hi. cbn zeta.
  assert (delete i (before ++ movie :: rest) = before ++ rest) as ->.
  { subst i. by rewrite delete_middle. }
  unfold store_after. cbn [world_of movies]. repeat split.
  rewrite !length_app. cbn. lia.
Qed.

(** C10. A patch request on an existing id whose body fails partial
    validation leaves the store as it was: the handler goes on after the 400
    response, the failed result has no data, so the merge copies the stored
    resource and writes it back; the second response ends in an exception and
    the client has the validation error. *)
Theorem patch_invalid_body_keeps_store fullYear req ms :
  success (validateMoviePartial fullYear (body req)) = false ->
  Spec.present (params_id req) ms ->
  store_after (serve (patch_movie_handler fullYear req) ms) = ms /\
  threw (serve (patch_movie_handler fullYear req) ms) = true /\
  json_error <$> error_of (validateMoviePartial fullYear (body req)) =
    payload <$> response_of (serve (patch_movie_handler fullYear req) ms) /\
  status <$> response_of (serve (patch_movie_handler fullYear req) ms) = Some 400%nat.
Proof.
  intros Hfail [i Hi]%present_findIndex.
  destruct (validateMoviePartial fullYear (body req)) as [data|error] eqn:Hresult; [done|].
  rewrite (patch_movie_invalid _ _ _ _ Hresult), Hi. cbn zeta.
  destruct (array_findIndex_Some _ _ _ Hi) as (before & movie & rest & -> & Hlen & _).
  unfold store_after. cbn [world_of movies].
  assert ((before ++ movie :: rest) !! i = Some movie) as Hold.
  { subst i. by rewrite list_lookup_middle. }
  rewrite Hold. cbn [fmap option_fmap option_map spread].
  by rewrite list_insert_id.
Qed.

Lemma validateMovie_accepts_objects fullYear candidate :
  success (validateMovie fullYear candidate) = true ->
  exists props, candidate = Some (JObject props).
Proof. destruct candidate as [[| | | | |props]|]; try done; eauto. Qed.

Lemma validateMoviePartial_accepts_objects fullYear candidate :
  success (validateMoviePartial fullYear candidate) = true ->
  exists props, candidate = Some (JObject props).
Proof. destruct candidate as [[| | | | |props]|]; try done; eauto. Qed.

(** C6. A patch request on an existing id whose body passes partial
    validation replaces the first resource with that id by the shallow merge
    of the body over it: a schema field of the body replaces the stored
    value, a schema field absent from the body keeps it, every other key
    (the id among them) keeps it whatever the body holds; with no schema
    field in the body the resource is unchanged; the answer is 201 with the
    merged resource. *)
Theorem patch_shallow_merge fullYear req ms :
  success (validateMoviePartial fullYear (body req)) = true ->
  Spec.present (params_id req) ms ->
  exists props i old updated,
    body req = Some (JObject props) /\
    ms !! i = Some old /\
    Spec.has_id (params_id req) old /\
    store_after (serve (patch_movie_handler fullYear req) ms) = <[i := updated]> ms /\
    threw (serve (patch_movie_handler fullYear req) ms) = false /\
    response_of (serve (patch_movie_handler fullYear req) ms) =
      Some {| status := 201; headers := ∅; payload := json (JObject updated) |} /\
    (forall f, updated !! Spec.name f =
               match props !! Spec.name f with
               | Some v => Some v
               | None => old !! Spec.name f
               end) /\
    (forall k, (forall f, Spec.name f <> k) -> updated !! k = old !! k) /\
    updated !! "id" = Some (JString (params_id req)) /\
    ((forall f, props !! Spec.name f = None) -> updated = old).
Proof.
  intros Hok [i Hi]%present_findIndex.
  destruct (validateMoviePartial_accepts_objects _ _ Hok) as [props Hbody].
  destruct (validateMoviePartial fullYear (body req)) as [data|] eqn:Hresult; [|done].
  pose proof Hresult as Hdata. rewrite Hbody in Hdata.
  apply validateMoviePartial_data in Hdata as ->.
  destruct (array_findIndex_Some _ _ _ Hi) as (before & old & rest & -> & Hlen & Hid & _).
  assert ((before ++ old :: rest) !! i = Some old) as Hold.
  { subst i. by rewrite list_lookup_middle. }
  exists props, i, old, (Spec.supplied props ∪ old).
  rewrite (patch_movie_valid _ _ _ _ Hresult), Hi, Hold.
  cbn [fmap option_fmap option_map spread].
  assert (forall f, (Spec.supplied props ∪ old) !! Spec.name f =
            match props !! Spec.name f with
            | Some v => Some v
            | None => old !! Spec.name f
            end) as Hfields.
  { intros f. rewrite lookup_union, supplied_field.
    destruct (props !! Spec.name f); [|by rewrite (left_id_L None _)].
    by destruct (old !! Spec.name f). }
  assert (forall k, (forall f, Spec.name f <> k) ->
            (Spec.supplied props ∪ old) !! k = old !! k) as Hother.
  { intros k Hk. rewrite lookup_union, (supplied_other _ _ Hk).
    by rewrite (left_id_L None _). }
  assert (Spec.has_id (params_id req) old) as Hhas by by apply id_is_has_id.
  repeat split; try done.
  - rewrite Hother; [done|]. by intros [].
  - intros Hnone. apply map_eq. intros k. rewrite lookup_union.
    assert (Spec.supplied props !! k = None) as ->; [|by rewrite (left_id_L None _)].
    apply eq_None_not_Some. intros [v (f & <- & Hv)%supplied_lookup].
    by rewrite Hnone in Hv.
Qed.

(** C3. A create request whose body passes full validation, with a fresh
    uuid, appends one resource at the end of the collection and answers 201
    with it, without exception; fetching by the assigned id then answers 200
    with the same resource. The resource holds the id, the five required
    fields as submitted, the rating as submitted or 5, and nothing else. *)
Theorem insert_then_get fullYear uuid req ms :
  success (validateMovie fullYear (body req)) = true ->
  ~ Spec.present uuid ms ->
  exists props created,
    body req = Some (JObject props) /\
    store_after (serve (post_movies_handler fullYear uuid req) ms) = ms ++ [created] /\
    threw (serve (post_movies_handler fullYear uuid req) ms) = false /\
    response_of (serve (post_movies_handler fullYear uuid req) ms) =
      Some {| status := 201; headers := ∅; payload := json (JObject created) |} /\
    (forall origin genre sent_body,
       serve (get_movie_handler {| origin_header := origin; query_genre := genre;
                                   params_id := uuid; body := sent_body |})
         (ms ++ [created]) =
       Normal tt {| movies := ms ++ [created];
                    res := {| statusCode := 200; resHeaders := ∅;
                              sent := Some {| status := 200; headers := ∅;
                                              payload := json (JObject created) |} |} |}) /\
    created !! "id" = Some (JString uuid) /\
    (forall f, created !! Spec.name f =
               match f with
               | Spec.Rating =>
                   Some (default (JNumber (Qc_of_Z 5)) (props !! Spec.name f))
               | _ => props !! Spec.name f
               end) /\
    (forall k, k <> "id" -> (forall f, Spec.name f <> k) -> created !! k = None).
Proof.
  intros Hok Hfresh%absent_find.
  destruct (validateMovie_accepts_objects _ _ Hok) as [props Hbody].
  destruct (validateMovie fullYear (body req)) as [data|] eqn:Hresult; [|done].
  pose proof Hresult as Hdata. rewrite Hbody in Hdata.
  apply validateMovie_data in Hdata as ->.
  exists props, (Spec.normalized props ∪ {[ "id" := JString uuid ]}).
  rewrite (post_movies_valid _ _ _ _ _ Hresult). cbn [spread].
  assert (forall k, (forall f, Spec.name f <> k) -> Spec.normalized props !! k = None)
    as Hother.
  { intros k Hk. unfold Spec.normalized.
    rewrite lookup_insert_ne by apply (Hk Spec.Rating). by apply supplied_other. }
  assert (forall f, Spec.normalized props !! Spec.name f =
            match f with
            | Spec.Rating =>
                Some (default (JNumber (Qc_of_Z 5)) (props !! Spec.name f))
            | _ => props !! Spec.name f
            end) as Hfields.
  { intros f. unfold Spec.normalized.
    destruct f; try (rewrite lookup_insert_ne by done; apply supplied_field).
    apply lookup_insert_eq. }
  assert ((Spec.normalized props ∪ {[ "id" := JString uuid ]}) !! "id" =
          Some (JString uuid)) as Hid.
  { rewrite lookup_union, Hother by (by intros []).
    by rewrite lookup_singleton_eq. }
  repeat split; try done.
  - intros origin genre sent_body. apply get_movie_found. cbn [params_id].
    apply array_find_app_fresh; [done|]. by apply id_is_has_id.
  - intros f. rewrite lookup_union, Hfields, lookup_singleton_ne by (by destruct f).
    by destruct f, (props !! _).
  - intros k Hk Hf. rewrite lookup_union, (Hother _ Hf), lookup_singleton_ne by done.
    done.
Qed.

(** C5, as claimed, fails: the upper bound of the year is the calendar year
    at which the schema was built, not the year at validation time. With the
    schema built in 2023, a movie of 2024 validated in 2024 satisfies the
    contract for the current year 2024 and is rejected. *)
Lemma validateFull_year_bound_is_fixed_at_load :
  let candidate :=
    Some (JObject {[ "title" := JString "X"; "year" := JNumber (Qc_of_Z 2024);
                     "director" := JString "D"; "duration" := JNumber (Qc_of_Z 90);
                     "genre" := JArray [JString "drama"] ]}) in
  Spec.full_ok 2024 candidate /\
  validateMovie 2023 candidate =
    SafeParseError [Issue (too_big (Qc_of_Z 2023) true) [PKey "year"]].
Proof.
  split.
  - by apply validateMovie_success.
  - reflexivity.
Qed.

(** C5, amended: with [fullYear] the calendar year at which the schema was
    built, full validation succeeds exactly on the candidates of
    [Spec.full_ok fullYear]; on success the data is the normalized resource
    (supplied fields, rating defaulted to 5, other keys stripped); on failure
    of an object the issues are exactly the violated constraints of all
    fields, and a field is reported exactly when it offends; a candidate that
    is not an object gets the single issue of its type. *)
Theorem validateFull_contract fullYear :
  (forall candidate,
     success (validateMovie fullYear candidate) = true <->
     Spec.full_ok fullYear candidate) /\
  (forall props,
     match validateMovie fullYear (Some (JObject props)) with
     | SafeParseSuccess data => data = Some (JObject (Spec.normalized props))
     | SafeParseError issues =>
         (forall i, i ∈ issues <->
                    Spec.violation Spec.required_full fullYear props i) /\
         (forall f, Spec.offends_full fullYear props f <-> Spec.reports issues f)
     end) /\
  (forall candidate,
     (exists props, candidate = Some (JObject props)) \/
     validateMovie fullYear candidate =
       SafeParseError [Issue (invalid_type "object" (getParsedType candidate)) []]).
Proof.
  split; [apply validateMovie_success|]. split.
  - intros props.
    destruct (validateMovie fullYear (Some (JObject props))) as [data|issues] eqn:Hresult.
    + by apply validateMovie_data in Hresult.
    + split; [intros i; by apply validateMovie_issues|].
      intros f. by apply validateMovie_reports.
  - intros candidate. apply (validate_not_object (schema_type fullYear)).
Qed.

(** C8. Partial validation succeeds exactly on the objects whose present
    fields meet their constraints; the data is the supplied fields; on
    failure the issues are exactly the violated constraints of the present
    fields, and an absent field is never reported; on a present value the
    violations are those of full validation; [{rating: 11}] fails with the
    rating above its maximum 10 and [{}] succeeds with no field. *)
Theorem validatePartial_contract fullYear :
  (forall candidate,
     success (validateMoviePartial fullYear candidate) = true <->
     Spec.partial_ok fullYear candidate) /\
  (forall props,
     match validateMoviePartial fullYear (Some (JObject props)) with
     | SafeParseSuccess data => data = Some (JObject (Spec.supplied props))
     | SafeParseError issues =>
         (forall i, i ∈ issues <->
                    Spec.violation Spec.required_partial fullYear props i) /\
         (forall f, Spec.offends_partial fullYear props f <-> Spec.reports issues f)
     end) /\
  (forall f v c rest,
     Spec.field_violation Spec.required_partial fullYear f (Some v) c rest <->
     Spec.field_violation Spec.required_full fullYear f (Some v) c rest) /\
  validateMoviePartial fullYear (Some (JObject {[ "rating" := JNumber (Qc_of_Z 11) ]})) =
    SafeParseError [Issue (too_big (Qc_of_Z 10) true) [PKey "rating"]] /\
  validateMoviePartial fullYear (Some (JObject ∅)) = SafeParseSuccess (Some (JObject ∅)).
Proof.
  split; [apply validateMoviePartial_success|]. split; [|split; [|split]].
  - intros props.
    destruct (validateMoviePartial fullYear (Some (JObject props)))
      as [data|issues] eqn:Hresult.
    + by apply validateMoviePartial_data in Hresult.
    + split; [intros i; by apply validateMoviePartial_issues|].
      intros f. by apply validateMoviePartial_reports.
  - intros f v c rest. split; apply field_violation_present.
  - reflexivity.
  - reflexivity.
Qed.

Lemma authorize_allowed preflight o :
  o ∈ ACCEPTED_ORIGINS ->
  Spec.authorize ACCEPTED_ORIGINS preflight (Some o) !! "Access-Control-Allow-Origin"
  = Some o.
Proof.
  intros Ho. unfold Spec.authorize. rewrite bool_decide_eq_true_2 by done.
  destruct preflight; by simplify_map_eq.
Qed.

Lemma authorize_refused preflight origin :
  (forall o, origin = Some o -> o ∉ ACCEPTED_ORIGINS) ->
  Spec.authorize ACCEPTED_ORIGINS preflight origin = ∅.
Proof.
  intros H. unfold Spec.authorize. destruct origin as [o|]; [|done].
  by rewrite bool_decide_eq_false_2 by auto.
Qed.

(** C9, as claimed, fails: only three handlers apply the origin check. A
    get-by-id request from an accepted origin is answered without any
    access-control header. *)
Lemma get_by_id_grants_no_origin :
  let movie : gmap string JValue := {[ "id" := JString "1" ]} in
  let req := {| origin_header := Some "https://movies.com"; query_genre := None;
                params_id := "1"; body := None |} in
  "https://movies.com" ∈ ACCEPTED_ORIGINS /\
  response_of (serve (get_movie_handler req) [movie]) =
    Some {| status := 200; headers := ∅; payload := json (JObject movie) |}.
Proof.
  split; [|reflexivity].
  unfold ACCEPTED_ORIGINS.
  repeat first [ apply list_elem_of_here | apply list_elem_of_further ].
Qed.

(** C9, amended: the handlers of [GET /movies], [DELETE /movies/:id] and
    [OPTIONS /movies/:id] set exactly the headers of [Spec.authorize] (the
    declared origin itself when it is in the allow-list, with the methods and
    headers for the pre-flight; nothing for another origin or none), and the
    response they send carries them; the other three handlers set no header;
    the store, the status and the body do not depend on the declared
    origin. *)
Theorem origin_gate fullYear uuid req ms :
  (headers_set (serve (get_movies_handler req) ms) =
     Spec.authorize ACCEPTED_ORIGINS false (origin_header req) /\
   headers_set (serve (delete_movie_handler req) ms) =
     Spec.authorize ACCEPTED_ORIGINS false (origin_header req) /\
   headers_set (serve (options_movie_handler req) ms) =
     Spec.authorize ACCEPTED_ORIGINS true (origin_header req)) /\
  (headers <$> response_of (serve (get_movies_handler req) ms) =
     (if threw (serve (get_movies_handler req) ms) then None
      else Some (Spec.authorize ACCEPTED_ORIGINS false (origin_header req))) /\
   headers <$> response_of (serve (delete_movie_handler req) ms) =
     Some (Spec.authorize ACCEPTED_ORIGINS false (origin_header req)) /\
   headers <$> response_of (serve (options_movie_handler req) ms) =
     Some (Spec.authorize ACCEPTED_ORIGINS true (origin_header req))) /\
  (headers_set (serve (get_movie_handler req) ms) = ∅ /\
   headers_set (serve (post_movies_handler fullYear uuid req) ms) = ∅ /\
   headers_set (serve (patch_movie_handler fullYear req) ms) = ∅) /\
  (forall origin,
     business (serve (get_movies_handler (with_origin origin req)) ms) =
       business (serve (get_movies_handler req) ms) /\
     business (serve (delete_movie_handler (with_origin origin req)) ms) =
       business (serve (delete_movie_handler req) ms) /\
     business (serve (options_movie_handler (with_origin origin req)) ms) =
       business (serve (options_movie_handler req) ms)) /\
  (forall o, o ∈ ACCEPTED_ORIGINS ->
     forall preflight,
       Spec.authorize ACCEPTED_ORIGINS preflight (Some o)
         !! "Access-Control-Allow-Origin" = Some o) /\
  (forall origin, (forall o, origin = Some o -> o ∉ ACCEPTED_ORIGINS) ->
     forall preflight, Spec.authorize ACCEPTED_ORIGINS preflight origin = ∅).
Proof.
  split_and!.
  - rewrite get_movies_run. cbn zeta.
    destruct (truthy _); [|done]. by destruct (array_filter _ _).
  - rewrite delete_movie_run. cbn zeta. by destruct (array_findIndex _ _).
  - by rewrite options_movie_run.
  - rewrite get_movies_run. cbn zeta.
    destruct (truthy _); [|done]. by destruct (array_filter _ _).
  - rewrite delete_movie_run. cbn zeta. by destruct (array_findIndex _ _).
  - by rewrite options_movie_run.
  - destruct (array_find (id_is (params_id req)) ms) as [movie|] eqn:Hfind.
    + by rewrite (get_movie_found _ _ _ Hfind).
    + by rewrite (get_movie_not_found _ _ Hfind).
  - destruct (validateMovie fullYear (body req)) as [data|error] eqn:Hresult.
    + by rewrite (post_movies_valid _ _ _ _ _ Hresult).
    + by rewrite (post_movies_invalid _ _ _ _ _ Hresult).
  - destruct (validateMoviePartial fullYear (body req)) as [data|error] eqn:Hresult.
    + rewrite (patch_movie_valid _ _ _ _ Hresult). by destruct (array_findIndex _ _).
    + rewrite (patch_movie_invalid _ _ _ _ Hresult). cbn zeta.
      by destruct (array_findIndex _ _).
  - intros origin. split_and!.
    + rewrite !get_movies_run. cbn zeta. cbn [with_origin query_genre].
      destruct (truthy _); [|done]. by destruct (array_filter _ _).
    + rewrite !delete_movie_run. cbn zeta. cbn [with_origin params_id].
      by destruct (array_findIndex _ _).
    + by rewrite !options_movie_run.
  - intros o Ho preflight. by apply authorize_allowed.
  - intros origin Ho preflight. by apply authorize_refused.
Qed.

(** [delete_removes_exactly_one] at the second of three movies. *)
Lemma delete_removes_exactly_one_witness :
  let req := {| origin_header := Some "https://movies.com"; query_genre := None;
                params_id := "2"; body := None |} in
  let ms : list (gmap string JValue) :=
    [ {[ "id" := JString "1" ]}; {[ "id" := JString "2" ]}; {[ "id" := JString "3" ]} ] in
  Spec.present (params_id req) ms /\
  exists before movie rest,
    ms = before ++ movie :: rest /\
    Spec.has_id (params_id req) movie /\
    (forall m, m ∈ before -> ~ Spec.has_id (params_id req) m) /\
    store_after (serve (delete_movie_handler req) ms) = before ++ rest /\
    threw (serve (delete_movie_handler req) ms) = false /\
    response_of (serve (delete_movie_handler req) ms) =
      Some {| status := 200;
              headers := Spec.authorize ACCEPTED_ORIGINS false (origin_header req);
              payload := message "Movie deleted" |} /\
    S (length (store_after (serve (delete_movie_handler req) ms))) = length ms.
Proof.
  intros req ms.
  assert (Spec.present (params_id req) ms) as Hpresent.
  { exists {[ "id" := JString "2" ]}. split; [|reflexivity].
    apply list_elem_of_further, list_elem_of_here. }
  split; [exact Hpresent|].
  exact (delete_removes_exactly_one req ms Hpresent).
Defined.

(** [patch_invalid_body_keeps_store] at the body [{rating: 11}]. *)
Lemma patch_invalid_body_keeps_store_witness :
  let req := {| origin_header := None; query_genre := None; params_id := "1";
                body := Some (JObject {[ "rating" := JNumber (Qc_of_Z 11) ]}) |} in
  let ms : list (gmap string JValue) :=
    [ {[ "id" := JString "1"; "rating" := JNumber (Qc_of_Z 7) ]} ] in
  success (validateMoviePartial 2024 (body req)) = false /\
  Spec.present (params_id req) ms /\
  store_after (serve (patch_movie_handler 2024 req) ms) = ms /\
  threw (serve (patch_movie_handler 2024 req) ms) = true /\
  json_error <$> error_of (validateMoviePartial 2024 (body req)) =
    payload <$> response_of (serve (patch_movie_handler 2024 req) ms) /\
  status <$> response_of (serve (patch_movie_handler 2024 req) ms) = Some 400%nat.
Proof.
  intros req ms.
  assert (Spec.present (params_id req) ms) as Hpresent.
  { exists {[ "id" := JString "1"; "rating" := JNumber (Qc_of_Z 7) ]}.
    split; [apply list_elem_of_here|reflexivity]. }
  split; [reflexivity|]. split; [exact Hpresent|].
  exact (patch_invalid_body_keeps_store 2024 req ms eq_refl Hpresent).
Defined.

(** [patch_shallow_merge] at a body that sets the rating and names an id. *)
Lemma patch_shallow_merge_witness :
  let req := {| origin_header := None; query_genre := None; params_id := "1";
                body := Some (JObject {[ "rating" := JNumber (Qc_of_Z 9);
                                         "id" := JString "other" ]}) |} in
  let ms : list (gmap string JValue) :=
    [ {[ "id" := JString "1"; "title" := JString "X";
         "rating" := JNumber (Qc_of_Z 7) ]} ] in
  success (validateMoviePartial 2024 (body req)) = true /\
  Spec.present (params_id req) ms /\
  exists props i old updated,
    body req = Some (JObject props) /\
    ms !! i = Some old /\
    Spec.has_id (params_id req) old /\
    store_after (serve (patch_movie_handler 2024 req) ms) = <[i := updated]> ms /\
    threw (serve (patch_movie_handler 2024 req) ms) = false /\
    response_of (serve (patch_movie_handler 2024 req) ms) =
      Some {| status := 201; headers := ∅; payload := json (JObject updated) |} /\
    (forall f, updated !! Spec.name f =
               match props !! Spec.name f with
               | Some v => Some v
               | None => old !! Spec.name f
               end) /\
    (forall k, (forall f, Spec.name f <> k) -> updated !! k = old !! k) /\
    updated !! "id" = Some (JString (params_id req)) /\
    ((forall f, props !! Spec.name f = None) -> updated = old).
Proof.
  intros req ms.
  assert (Spec.present (params_id req) ms) as Hpresent.
  { exists {[ "id" := JString "1"; "title" := JString "X";
              "rating" := JNumber (Qc_of_Z 7) ]}.
    split; [apply list_elem_of_here|reflexivity]. }
  split; [reflexivity|]. split; [exact Hpresent|].
  exact (patch_shallow_merge 2024 req ms eq_refl Hpresent).
Defined.

(** [insert_then_get] at a movie of 2000 without rating. *)
Lemma insert_then_get_witness :
  let req := {| origin_header := None; query_genre := None; params_id := EmptyString;
                body := Some (JObject
                  {[ "title" := JString "X"; "year" := JNumber (Qc_of_Z 2000);
                     "director" := JString "D"; "duration" := JNumber (Qc_of_Z 90);
                     "genre" := JArray [JString "drama"] ]}) |} in
  let ms : list (gmap string JValue) := [ {[ "id" := JString "1" ]} ] in
  success (validateMovie 2024 (body req)) = true /\
  ~ Spec.present "uuid-1" ms /\
  exists props created,
    body req = Some (JObject props) /\
    store_after (serve (post_movies_handler 2024 "uuid-1" req) ms) = ms ++ [created] /\
    threw (serve (post_movies_handler 2024 "uuid-1" req) ms) = false /\
    response_of (serve (post_movies_handler 2024 "uuid-1" req) ms) =
      Some {| status := 201; headers := ∅; payload := json (JObject created) |} /\
    (forall origin genre sent_body,
       serve (get_movie_handler {| origin_header := origin; query_genre := genre;
                                   params_id := "uuid-1"; body := sent_body |})
         (ms ++ [created]) =
       Normal tt {| movies := ms ++ [created];
                    res := {| statusCode := 200; resHeaders := ∅;
                              sent := Some {| status := 200; headers := ∅;
                                              payload := json (JObject created) |} |} |}) /\
    created !! "id" = Some (JString "uuid-1") /\
    (forall f, created !! Spec.name f =
               match f with
               | Spec.Rating =>
                   Some (default (JNumber (Qc_of_Z 5)) (props !! Spec.name f))
               | _ => props !! Spec.name f
               end) /\
    (forall k, k <> "id" -> (forall f, Spec.name f <> k) -> created !! k = None).
Proof.
  intros req ms.
  assert (~ Spec.present "uuid-1" ms) as Hfresh.
  { apply absent_find. reflexivity. }
  split; [reflexivity|]. split; [exact Hfresh|].
  exact (insert_then_get 2024 "uuid-1" req ms eq_refl Hfresh).
Defined.

(* ===================================================================== *)
(** ** Further properties of the handlers and the validators              *)
(* ===================================================================== *)

Lemma array_find_Some {A} (p : A -> bool) l x :
  array_find p l = Some x <->
  exists l1 l2, l = l1 ++ x :: l2 /\ p x = true /\ forall y, y ∈ l1 -> p y = false.
Proof.
  induction l as [|a l IH]; simpl.
  - split; [done|]. intros (l1 & l2 & H & _). by destruct l1.
  - destruct (p a) eqn:Ha.
    + split.
      * intros [= ->]. exists [], l. repeat split; [done|]. by intros y ?%elem_of_nil.
      * intros ([|b l1] & l2 & H & Hx & Hl1); simplify_eq/=; [done|].
        rewrite (Hl1 b (list_elem_of_here _ _)) in Ha. done.
    + rewrite IH. split.
      * intros (l1 & l2 & -> & Hx & Hl1). exists (a :: l1), l2.
        repeat split; [done|]. intros y [->|Hy]%elem_of_cons; auto.
      * intros ([|b l1] & l2 & H & Hx & Hl1); simplify_eq/=; [congruence|].
        exists l1, l2. repeat split; [done|]. intros y Hy. apply Hl1. by right.
Qed.

Lemma array_findIndex_app_fresh {A} (p : A -> bool) l x :
  (forall y, y ∈ l -> p y = false) -> p x = true ->
  array_findIndex p (l ++ [x]) = Some (length l).
Proof.
  induction l as [|a l IH]; simpl; intros Hl Hx.
  - by rewrite Hx.
  - rewrite (Hl a (list_elem_of_here _ _)), IH; [done| |done].
    intros y Hy. apply Hl. by right.
Qed.

Lemma array_findIndex_middle {A} (p : A -> bool) l1 x l2 :
  (forall y, y ∈ l1 -> p y = false) -> p x = true ->
  array_findIndex p (l1 ++ x :: l2) = Some (length l1).
Proof.
  induction l1 as [|a l1 IH]; simpl; intros Hl Hx.
  - by rewrite Hx.
  - rewrite (Hl a (list_elem_of_here _ _)), IH; [done| |done].
    intros y Hy. apply Hl. by right.
Qed.

Lemma array_filter_throws {A} (cb : A -> option bool) l x :
  x ∈ l -> cb x = None -> array_filter cb l = None.
Proof.
  induction l as [|a l IH]; simpl; [by intros ?%elem_of_nil|].
  intros [->|Hx]%elem_of_cons Hcb.
  - by rewrite Hcb.
  - destruct (cb a); [|done]. by rewrite IH.
Qed.

Lemma filter_callback_texts movie :
  genre_texts movie -> filter_callback movie = Some (has_genres movie).
Proof.
  intros (items & Hgenre & Htexts). unfold filter_callback, has_genres.
  rewrite Hgenre. destruct items as [|g items]; [done|].
  destruct (Htexts g (list_elem_of_here _ _)) as [s ->].
  cbn [array_some]. by rewrite genre_callback_text.
Qed.

Lemma array_filter_texts ms :
  (forall movie, movie ∈ ms -> genre_texts movie) ->
  array_filter filter_callback ms = Some (List.filter has_genres ms).
Proof.
  induction ms as [|movie ms IH]; intros H; [done|].
  cbn [array_filter List.filter].
  rewrite (filter_callback_texts movie) by (apply H; left).
  rewrite IH by (intros m Hm; apply H; by right).
  by destruct (has_genres movie).
Qed.

(** X1. A create request whose body is rejected still appends one record to
    the store, the record [{id: uuid}] alone; the client gets the 400 with
    the issues of the validation, and the handler ends by the exception of
    its second response. *)
Theorem post_invalid_appends_id_record fullYear uuid req ms :
  success (validateMovie fullYear (body req)) = false ->
  store_after (serve (post_movies_handler fullYear uuid req) ms) =
    ms ++ [ {[ "id" := JString uuid ]} ] /\
  threw (serve (post_movies_handler fullYear uuid req) ms) = true /\
  status <$> response_of (serve (post_movies_handler fullYear uuid req) ms) =
    Some 400%nat /\
  payload <$> response_of (serve (post_movies_handler fullYear uuid req) ms) =
    json_error <$> error_of (validateMovie fullYear (body req)).
Proof.
  intros Hfail.
  destruct (validateMovie fullYear (body req)) as [data|error] eqn:Hresult; [done|].
  by rewrite (post_movies_invalid _ _ _ _ _ Hresult).
Qed.

(** [post_invalid_appends_id_record] on a concrete store and request. *)
Lemma post_invalid_appends_id_record_witness :
  let req := {| origin_header := None; query_genre := None; params_id := EmptyString;
                body := Some (JObject {[ "title" := JNumber (Qc_of_Z 3) ]}) |} in
  let ms : list (gmap string JValue) := [ {[ "id" := JString "1" ]} ] in
  success (validateMovie 2024 (body req)) = false /\
  store_after (serve (post_movies_handler 2024 "uuid-2" req) ms) =
    ms ++ [ {[ "id" := JString "uuid-2" ]} ] /\
  threw (serve (post_movies_handler 2024 "uuid-2" req) ms) = true /\
  status <$> response_of (serve (post_movies_handler 2024 "uuid-2" req) ms) =
    Some 400%nat /\
  payload <$> response_of (serve (post_movies_handler 2024 "uuid-2" req) ms) =
    json_error <$> error_of (validateMovie 2024 (body req)).
Proof.
  intros req ms. split; [reflexivity|].
  exact (post_invalid_appends_id_record 2024 "uuid-2" req ms eq_refl).
Defined.

(** X2. On a store where every genre is an array of strings, a list request
    with a non-empty tag answers 200 with the resources whose genre array is
    not empty, in order, whatever the tag; the store is unchanged. *)
Theorem genre_filter_keeps_every_genre req ms :
  truthy (query_genre req) = true ->
  (forall movie, movie ∈ ms -> genre_texts movie) ->
  payload <$> response_of (serve (get_movies_handler req) ms) =
    Some (movies_json (List.filter has_genres ms)) /\
  status <$> response_of (serve (get_movies_handler req) ms) = Some 200%nat /\
  threw (serve (get_movies_handler req) ms) = false /\
  store_after (serve (get_movies_handler req) ms) = ms.
Proof.
  intros Htag Htexts. rewrite get_movies_run. cbn zeta.
  by rewrite Htag, (array_filter_texts _ Htexts).
Qed.

(** [genre_filter_keeps_every_genre] on a concrete store and request. *)
Lemma genre_filter_keeps_every_genre_witness :
  let req := {| origin_header := None; query_genre := Some "crime";
                params_id := EmptyString; body := None |} in
  let ms : list (gmap string JValue) :=
    [ {[ "id" := JString "1"; "genre" := JArray [JString "Drama"] ]};
      {[ "id" := JString "2"; "genre" := JArray [] ]} ] in
  truthy (query_genre req) = true /\
  (forall movie, movie ∈ ms -> genre_texts movie) /\
  payload <$> response_of (serve (get_movies_handler req) ms) =
    Some (movies_json (List.filter has_genres ms)) /\
  status <$> response_of (serve (get_movies_handler req) ms) = Some 200%nat /\
  threw (serve (get_movies_handler req) ms) = false /\
  store_after (serve (get_movies_handler req) ms) = ms.
Proof.
  intros req ms.
  assert (forall movie, movie ∈ ms -> genre_texts movie) as Htexts.
  { intros movie Hm. repeat apply elem_of_cons in Hm as [->|Hm].
    - exists [JString "Drama"]. split; [reflexivity|].
      intros g [->|Hg%elem_of_nil]%elem_of_cons; [by exists "Drama"|done].
    - exists []. split; [reflexivity|]. by intros g Hg%elem_of_nil.
    - by apply elem_of_nil in Hm. }
  split; [reflexivity|]. split; [exact Htexts|].
  exact (genre_filter_keeps_every_genre req ms eq_refl Htexts).
Defined.

(** X3. After a rejected create, every list request with a non-empty tag ends
    by an exception before any response is sent: the record the create left
    has no genre array for the filter to read. *)
Theorem rejected_create_breaks_genre_filter fullYear uuid req ms req' :
  success (validateMovie fullYear (body req)) = false ->
  truthy (query_genre req') = true ->
  threw (serve (get_movies_handler req')
           (store_after (serve (post_movies_handler fullYear uuid req) ms))) = true /\
  response_of (serve (get_movies_handler req')
                 (store_after (serve (post_movies_handler fullYear uuid req) ms))) = None.
Proof.
  intros Hfail Htag.
  destruct (validateMovie fullYear (body req)) as [data|error] eqn:Hresult; [done|].
  rewrite (post_movies_invalid _ _ _ _ _ Hresult). unfold store_after.
  cbn [world_of movies]. rewrite get_movies_run. cbn zeta. rewrite Htag.
  rewrite (array_filter_throws filter_callback _ {[ "id" := JString uuid ]}); [done| |done].
  apply elem_of_app. right. apply list_elem_of_here.
Qed.

(** [rejected_create_breaks_genre_filter] on a concrete store and request. *)
Lemma rejected_create_breaks_genre_filter_witness :
  let req := {| origin_header := None; query_genre := None; params_id := EmptyString;
                body := Some (JObject ∅) |} in
  let req' := {| origin_header := None; query_genre := Some "drama";
                 params_id := EmptyString; body := None |} in
  let ms : list (gmap string JValue) :=
    [ {[ "id" := JString "1"; "genre" := JArray [JString "Drama"] ]} ] in
  success (validateMovie 2024 (body req)) = false /\
  truthy (query_genre req') = true /\
  threw (serve (get_movies_handler req')
           (store_after (serve (post_movies_handler 2024 "uuid-2" req) ms))) = true /\
  response_of (serve (get_movies_handler req')
                 (store_after (serve (post_movies_handler 2024 "uuid-2" req) ms))) = None.
Proof.
  intros req req' ms. split; [reflexivity|]. split; [reflexivity|].
  exact (rejected_create_breaks_genre_filter 2024 "uuid-2" req ms req' eq_refl eq_refl).
Defined.

Lemma main_page_run req ms :
  serve (main_page_handler req) ms =
  Normal tt {| movies := ms;
               res := {| statusCode := 200; resHeaders := ∅;
                         sent := Some {| status := 200; headers := ∅;
                                         payload := text "<h1>Main Page</h1>" |} |} |}.
Proof. reflexivity. Qed.

(** X4. The main page, the two get handlers and the pre-flight handler never
    change the store. *)
Theorem read_handlers_keep_store req ms :
  store_after (serve (main_page_handler req) ms) = ms /\
  store_after (serve (get_movies_handler req) ms) = ms /\
  store_after (serve (get_movie_handler req) ms) = ms /\
  store_after (serve (options_movie_handler req) ms) = ms.
Proof.
  split_and!.
  - done.
  - rewrite get_movies_run. cbn zeta.
    destruct (truthy _); [|done]. by destruct (array_filter _ _).
  - destruct (array_find (id_is (params_id req)) ms) as [movie|] eqn:Hfind.
    + by rewrite (get_movie_found _ _ _ Hfind).
    + by rewrite (get_movie_not_found _ _ Hfind).
  - by rewrite options_movie_run.
Qed.

(** X5. The get handler answers a present id with 200 and the first stored
    resource that has the id, without exception. *)
Theorem get_movie_answers_first_match req ms :
  Spec.present (params_id req) ms ->
  exists before movie rest,
    ms = before ++ movie :: rest /\
    Spec.has_id (params_id req) movie /\
    (forall m, m ∈ before -> ~ Spec.has_id (params_id req) m) /\
    response_of (serve (get_movie_handler req) ms) =
      Some {| status := 200; headers := ∅; payload := json (JObject movie) |} /\
    threw (serve (get_movie_handler req) ms) = false.
Proof.
  intros Hpresent.
  destruct (array_find (id_is (params_id req)) ms) as [movie|] eqn:Hfind.
  - pose proof Hfind as (before & rest & -> & Hid & Hbefore)%array_find_Some.
    exists before, movie, rest. rewrite (get_movie_found _ _ _ Hfind).
    split; [done|]. split; [by apply id_is_has_id|]. split; [|done].
    intros m Hm Hid'%id_is_has_id. by rewrite (Hbefore m Hm) in Hid'.
  - by apply absent_find in Hfind.
Qed.

(** [get_movie_answers_first_match] on a concrete store and request. *)
Lemma get_movie_answers_first_match_witness :
  let req := {| origin_header := None; query_genre := None; params_id := "2";
                body := None |} in
  let ms : list (gmap string JValue) :=
    [ {[ "id" := JString "1" ]};
      {[ "id" := JString "2"; "title" := JString "first" ]};
      {[ "id" := JString "2"; "title" := JString "second" ]} ] in
  Spec.present (params_id req) ms /\
  exists before movie rest,
    ms = before ++ movie :: rest /\
    Spec.has_id (params_id req) movie /\
    (forall m, m ∈ before -> ~ Spec.has_id (params_id req) m) /\
    response_of (serve (get_movie_handler req) ms) =
      Some {| status := 200; headers := ∅; payload := json (JObject movie) |} /\
    threw (serve (get_movie_handler req) ms) = false.
Proof.
  intros req ms.
  assert (Spec.present (params_id req) ms) as Hpresent.
  { exists {[ "id" := JString "2"; "title" := JString "second" ]}.
    split; [|reflexivity].
    apply list_elem_of_further, list_elem_of_further, list_elem_of_here. }
  split; [exact Hpresent|].
  exact (get_movie_answers_first_match req ms Hpresent).
Defined.

Lemma supplied_no_id props : Spec.supplied props !! "id" = None.
Proof. apply supplied_other. by intros []. Qed.

Lemma patch_movie_store fullYear req ms :
  store_after (serve (patch_movie_handler fullYear req) ms) = ms \/
  exists props before old rest,
    body req = Some (JObject props) /\
    validateMoviePartial fullYear (body req) =
      SafeParseSuccess (Some (JObject (Spec.supplied props))) /\
    ms = before ++ old :: rest /\
    Spec.has_id (params_id req) old /\
    (forall m, m ∈ before -> id_is (params_id req) m = false) /\
    store_after (serve (patch_movie_handler fullYear req) ms) =
      before ++ (Spec.supplied props ∪ old) :: rest.
Proof.
  destruct (validateMoviePartial fullYear (body req)) as [data|error] eqn:Hresult.
  - rewrite (patch_movie_valid _ _ _ _ Hresult).
    destruct (array_findIndex (id_is (params_id req)) ms) as [i|] eqn:Hi; [|by left].
    right.
    destruct (validateMoviePartial_accepts_objects fullYear (body req))
      as [props Hbody]; [by rewrite Hresult|].
    pose proof Hresult as Hdata. rewrite Hbody in Hdata.
    apply validateMoviePartial_data in Hdata as ->.
    destruct (array_findIndex_Some _ _ _ Hi)
      as (before & old & rest & -> & Hlen & Hid & Hbefore).
    exists props, before, old, rest. split; [done|]. split; [done|].
    split; [done|]. split; [by apply id_is_has_id|]. split; [done|].
    cbv zeta. unfold store_after. cbn [world_of movies].
    subst i. rewrite list_lookup_middle by done.
    cbn [fmap option_fmap option_map spread].
    by rewrite insert_app_r_alt, Nat.sub_diag by lia.
  - left. rewrite (patch_movie_invalid _ _ _ _ Hresult). cbn zeta.
    destruct (array_findIndex (id_is (params_id req)) ms) as [i|] eqn:Hi; [|done].
    destruct (array_findIndex_Some _ _ _ Hi)
      as (before & old & rest & -> & Hlen & Hid & Hbefore).
    unfold store_after. cbn [world_of movies].
    subst i. rewrite list_lookup_middle by done.
    cbn [fmap option_fmap option_map spread].
    by rewrite list_insert_id by by apply list_lookup_middle.
Qed.

(** X6. A patch request, accepted or rejected, on a present or an absent id,
    changes no id and not the number of resources, and leaves every resource
    with another id as it was. *)
Theorem patch_keeps_ids fullYear req ms :
  ids (store_after (serve (patch_movie_handler fullYear req) ms)) = ids ms /\
  length (store_after (serve (patch_movie_handler fullYear req) ms)) = length ms /\
  (forall j m,
     ms !! j = Some m -> ~ Spec.has_id (params_id req) m ->
     store_after (serve (patch_movie_handler fullYear req) ms) !! j = Some m).
Proof.
  destruct (patch_movie_store fullYear req ms)
    as [->|(props & before & old & rest & _ & _ & -> & Hid & _ & ->)]; [done|].
  split_and!.
  - unfold ids. rewrite !fmap_app, !fmap_cons. do 2 f_equal.
    by rewrite lookup_union, supplied_no_id, (left_id_L None _).
  - by rewrite !length_app.
  - intros j m Hj Hm.
    destruct (decide (j = length before)) as [->|Hne].
    + rewrite list_lookup_middle in Hj by done. by simplify_eq.
    + destruct (decide (j < length before)%nat).
      * rewrite lookup_app_l in Hj |- * by done. done.
      * rewrite lookup_app_r in Hj |- * by lia.
        destruct (j - length before)%nat as [|k] eqn:Hk; [lia|]. done.
Qed.

Lemma delete_movie_store req ms :
  (~ Spec.present (params_id req) ms /\
   store_after (serve (delete_movie_handler req) ms) = ms) \/
  exists before movie rest,
    ms = before ++ movie :: rest /\
    Spec.has_id (params_id req) movie /\
    (forall m, m ∈ before -> id_is (params_id req) m = false) /\
    store_after (serve (delete_movie_handler req) ms) = before ++ rest.
Proof.
  rewrite delete_movie_run. cbn zeta.
  destruct (array_findIndex (id_is (params_id req)) ms) as [i|] eqn:Hi.
  - right. destruct (array_findIndex_Some _ _ _ Hi)
      as (before & movie & rest & -> & Hlen & Hid & Hbefore).
    exists before, movie, rest. split; [done|]. split; [by apply id_is_has_id|].
    split; [done|]. unfold store_after. cbn [world_of movies].
    subst i. by rewrite delete_middle.
  - left. split; [|done]. by apply absent_find, array_findIndex_find.
Qed.

(** X7. When exactly one stored resource has the id, deleting it makes the id
    absent: a following get answers 400, a second delete answers 404 and
    changes nothing. *)
Theorem delete_makes_id_absent req ms :
  Spec.present (params_id req) ms ->
  only_one (params_id req) ms ->
  ~ Spec.present (params_id req) (store_after (serve (delete_movie_handler req) ms)) /\
  status <$> response_of
    (serve (get_movie_handler req)
       (store_after (serve (delete_movie_handler req) ms))) = Some 400%nat /\
  status <$> response_of
    (serve (delete_movie_handler req)
       (store_after (serve (delete_movie_handler req) ms))) = Some 404%nat /\
  store_after
    (serve (delete_movie_handler req)
       (store_after (serve (delete_movie_handler req) ms))) =
  store_after (serve (delete_movie_handler req) ms).
Proof.
  intros Hpresent Honly.
  destruct (delete_movie_store req ms)
    as [[Habsent _]|(before & movie & rest & -> & Hid & Hbefore & ->)]; [done|].
  assert (~ Spec.present (params_id req) (before ++ rest)) as Habsent.
  { intros (m & [Hm|Hm]%elem_of_app & Hm').
    - apply id_is_has_id in Hm'. by rewrite (Hbefore m Hm) in Hm'.
    - apply list_elem_of_lookup in Hm as [k Hk].
      assert (length before = length before + S k)%nat; [|lia].
      apply (Honly _ _ movie m); [by apply list_lookup_middle| |done|done].
      by rewrite lookup_app_r, Nat.add_comm, Nat.add_sub by lia. }
  split; [done|].
  pose proof Habsent as Hfind%absent_find.
  rewrite (get_movie_not_found _ _ Hfind), delete_movie_run.
  apply array_findIndex_find in Hfind. by rewrite Hfind.
Qed.

(** [delete_makes_id_absent] on a concrete store and request. *)
Lemma delete_makes_id_absent_witness :
  let req := {| origin_header := None; query_genre := None; params_id := "2";
                body := None |} in
  let ms : list (gmap string JValue) :=
    [ {[ "id" := JString "1" ]}; {[ "id" := JString "2" ]}; {[ "id" := JString "3" ]} ] in
  Spec.present (params_id req) ms /\
  only_one (params_id req) ms /\
  ~ Spec.present (params_id req) (store_after (serve (delete_movie_handler req) ms)) /\
  status <$> response_of
    (serve (get_movie_handler req)
       (store_after (serve (delete_movie_handler req) ms))) = Some 400%nat /\
  status <$> response_of
    (serve (delete_movie_handler req)
       (store_after (serve (delete_movie_handler req) ms))) = Some 404%nat /\
  store_after
    (serve (delete_movie_handler req)
       (store_after (serve (delete_movie_handler req) ms))) =
  store_after (serve (delete_movie_handler req) ms).
Proof.
  intros req ms.
  assert (Spec.present (params_id req) ms) as Hpresent.
  { exists {[ "id" := JString "2" ]}. split; [|reflexivity].
    apply list_elem_of_further, list_elem_of_here. }
  assert (only_one (params_id req) ms) as Honly.
  { intros [|[|[|i]]] [|[|[|j]]] m m' Hi Hj Hm Hm'; try done;
      simplify_eq/=; by apply id_is_has_id in Hm, Hm'. }
  split; [exact Hpresent|]. split; [exact Honly|].
  exact (delete_makes_id_absent req ms Hpresent Honly).
Defined.

(** X8. A create request followed by the delete of the generated id leaves the
    store as it was before the two, whether the body was accepted or not,
    provided the generated id was fresh. *)
Theorem create_then_delete_restores fullYear uuid req ms :
  ~ Spec.present uuid ms ->
  forall origin genre sent_body,
    store_after
      (serve (delete_movie_handler {| origin_header := origin; query_genre := genre;
                                      params_id := uuid; body := sent_body |})
         (store_after (serve (post_movies_handler fullYear uuid req) ms))) = ms.
Proof.
  intros Hfresh origin genre sent_body.
  assert (exists created,
            store_after (serve (post_movies_handler fullYear uuid req) ms) =
              ms ++ [created] /\ id_is uuid created = true) as (created & -> & Hid).
  { destruct (validateMovie fullYear (body req)) as [data|error] eqn:Hresult.
    - rewrite (post_movies_valid _ _ _ _ _ Hresult). eexists. split; [done|].
      destruct (validateMovie_accepts_objects fullYear (body req))
        as [props Hbody]; [by rewrite Hresult|].
      rewrite Hbody in Hresult. apply validateMovie_data in Hresult as ->.
      apply id_is_has_id. unfold Spec.has_id. cbn [spread].
      rewrite lookup_union. unfold Spec.normalized.
      rewrite lookup_insert_ne, supplied_no_id by done.
      by rewrite lookup_singleton_eq.
    - rewrite (post_movies_invalid _ _ _ _ _ Hresult). eexists. split; [done|].
      apply id_is_has_id. apply lookup_singleton_eq. }
  rewrite delete_movie_run. cbn zeta. cbn [params_id].
  rewrite array_findIndex_app_fresh; [|by apply array_find_None, absent_find|done].
  unfold store_after. cbn [world_of movies].
  by rewrite delete_middle, app_nil_r.
Qed.

(** [create_then_delete_restores] on a concrete store and request. *)
Lemma create_then_delete_restores_witness :
  let req := {| origin_header := None; query_genre := None; params_id := EmptyString;
                body := Some (JObject ∅) |} in
  let ms : list (gmap string JValue) := [ {[ "id" := JString "1" ]} ] in
  ~ Spec.present "uuid-2" ms /\
  forall origin genre sent_body,
    store_after
      (serve (delete_movie_handler {| origin_header := origin; query_genre := genre;
                                      params_id := "uuid-2"; body := sent_body |})
         (store_after (serve (post_movies_handler 2024 "uuid-2" req) ms))) = ms.
Proof.
  intros req ms.
  assert (~ Spec.present "uuid-2" ms) as Hfresh.
  { apply absent_find. reflexivity. }
  split; [exact Hfresh|].
  exact (create_then_delete_restores 2024 "uuid-2" req ms Hfresh).
Defined.

(** X13. Sending the same patch request twice leaves the store that one
    request leaves. *)
Theorem patch_twice_is_patch_once fullYear req ms :
  store_after
    (serve (patch_movie_handler fullYear req)
       (store_after (serve (patch_movie_handler fullYear req) ms))) =
  store_after (serve (patch_movie_handler fullYear req) ms).
Proof.
  destruct (patch_movie_store fullYear req ms)
    as [Hsame|(props & before & old & rest & Hbody & Hresult & -> & Hid & Hbefore & ->)];
    [by rewrite !Hsame|].
  rewrite (patch_movie_valid _ _ _ _ Hresult).
  assert (id_is (params_id req) (Spec.supplied props ∪ old) = true) as Hid'.
  { apply id_is_has_id. unfold Spec.has_id.
    by rewrite lookup_union, supplied_no_id, (left_id_L None _). }
  rewrite (array_findIndex_middle _ _ _ _ Hbefore Hid').
  cbv zeta. unfold store_after. cbn [world_of movies].
  rewrite list_lookup_middle by done. cbn [fmap option_fmap option_map spread].
  rewrite insert_app_r_alt, Nat.sub_diag by lia. cbn.
  by rewrite (assoc_L (∪)), (idemp_L (∪)).
Qed.

Lemma conforms_fields fullYear movie :
  conforms fullYear movie <->
  forall f, match movie !! Spec.name f with
            | Some v => Spec.constraint fullYear f v
            | None => f = Spec.Rating
            end.
Proof.
  unfold conforms, Spec.full_ok. split.
  - intros (props & [= <-] & Hreq & Hrating) f.
    destruct f; try (by edestruct Hreq as (v & -> & Hc); [|exact Hc]).
    destruct (movie !! Spec.name Spec.Rating) as [v|] eqn:Hv; [by apply Hrating|done].
  - intros H. exists movie. split; [done|]. split.
    + intros f Hf. specialize (H f).
      destruct (movie !! Spec.name f) as [v|]; [eauto|done].
    + intros v Hv. specialize (H Spec.Rating). by rewrite Hv in H.
Qed.

Lemma rating_default_ok fullYear :
  Spec.constraint fullYear Spec.Rating (JNumber (Qc_of_Z 5)).
Proof.
  exists (Qc_of_Z 5). split; [done|]. by rewrite <- !Z2Qc_inj_le.
Qed.

Lemma normalized_fields props f :
  Spec.normalized props !! Spec.name f =
  match f with
  | Spec.Rating => Some (default (JNumber (Qc_of_Z 5)) (props !! Spec.name f))
  | _ => props !! Spec.name f
  end.
Proof.
  unfold Spec.normalized.
  destruct f; try (rewrite lookup_insert_ne by done; apply supplied_field).
  apply lookup_insert_eq.
Qed.

Lemma normalized_conforms fullYear props extra :
  conforms fullYear props ->
  (forall f, extra !! Spec.name f = None) ->
  conforms fullYear (Spec.normalized props ∪ extra).
Proof.
  rewrite !conforms_fields. intros H Hextra f. specialize (H f).
  rewrite lookup_union, Hextra, (right_id_L None _), normalized_fields.
  destruct f; try done. cbn [Spec.name] in *.
  destruct (props !! "rating"); [done|apply rating_default_ok].
Qed.

(** X9. A create request with an accepted body keeps the store conforming:
    when every stored resource passes the full contract, so does every
    resource after the request. *)
Theorem valid_create_keeps_conformance fullYear uuid req ms :
  success (validateMovie fullYear (body req)) = true ->
  Forall (conforms fullYear) ms ->
  Forall (conforms fullYear)
    (store_after (serve (post_movies_handler fullYear uuid req) ms)).
Proof.
  intros Hok Hms.
  destruct (validateMovie_accepts_objects _ _ Hok) as [props Hbody].
  destruct (validateMovie fullYear (body req)) as [data|] eqn:Hresult; [|done].
  rewrite (post_movies_valid _ _ _ _ _ Hresult). unfold store_after.
  cbn [world_of movies]. apply Forall_app. split; [done|].
  apply Forall_singleton.
  pose proof Hresult as Hdata. rewrite Hbody in Hdata.
  apply validateMovie_data in Hdata as ->. cbn [spread].
  apply normalized_conforms.
  - apply validateMovie_success. by rewrite <- Hbody, Hresult.
  - intros f. apply lookup_singleton_ne. by destruct f.
Qed.

(** [valid_create_keeps_conformance] on a concrete store and request. *)
Lemma valid_create_keeps_conformance_witness :
  let movie : gmap string JValue :=
    {[ "title" := JString "X"; "year" := JNumber (Qc_of_Z 2000);
       "director" := JString "D"; "duration" := JNumber (Qc_of_Z 90);
       "genre" := JArray [JString "drama"] ]} in
  let req := {| origin_header := None; query_genre := None; params_id := EmptyString;
                body := Some (JObject movie) |} in
  let ms : list (gmap string JValue) := [ <[ "id" := JString "1" ]> movie ] in
  success (validateMovie 2024 (body req)) = true /\
  Forall (conforms 2024) ms /\
  Forall (conforms 2024)
    (store_after (serve (post_movies_handler 2024 "uuid-2" req) ms)).
Proof.
  intros movie req ms.
  assert (Forall (conforms 2024) ms) as Hms.
  { apply Forall_singleton. by apply validateMovie_success. }
  split; [reflexivity|]. split; [exact Hms|].
  exact (valid_create_keeps_conformance 2024 "uuid-2" req ms eq_refl Hms).
Defined.

(** X10. A patch request with an accepted body keeps the store conforming:
    the merged resource passes the full contract when the stored one did. *)
Theorem valid_patch_keeps_conformance fullYear req ms :
  success (validateMoviePartial fullYear (body req)) = true ->
  Forall (conforms fullYear) ms ->
  Forall (conforms fullYear)
    (store_after (serve (patch_movie_handler fullYear req) ms)).
Proof.
  intros Hok Hms.
  destruct (patch_movie_store fullYear req ms)
    as [->|(props & before & old & rest & Hbody & Hresult & -> & Hid & _ & ->)];
    [done|].
  apply Forall_app in Hms as [Hbefore [Hold Hrest]%Forall_cons].
  apply Forall_app. split; [done|]. apply Forall_cons. split; [|done].
  apply validateMoviePartial_success in Hok as (props' & Hbody' & Hpartial).
  rewrite Hbody in Hbody'. injection Hbody' as <-.
  rewrite conforms_fields in Hold |- *. intros f. specialize (Hold f).
  rewrite lookup_union, supplied_field.
  destruct (props !! Spec.name f) as [v|] eqn:Hv.
  - rewrite union_Some_l. by apply Hpartial.
  - by rewrite (left_id_L None _).
Qed.

(** [valid_patch_keeps_conformance] on a concrete store and request. *)
Lemma valid_patch_keeps_conformance_witness :
  let movie : gmap string JValue :=
    {[ "id" := JString "1";
       "title" := JString "X"; "year" := JNumber (Qc_of_Z 2000);
       "director" := JString "D"; "duration" := JNumber (Qc_of_Z 90);
       "genre" := JArray [JString "drama"] ]} in
  let req := {| origin_header := None; query_genre := None; params_id := "1";
                body := Some (JObject {[ "year" := JNumber (Qc_of_Z 1999) ]}) |} in
  let ms : list (gmap string JValue) := [ movie ] in
  success (validateMoviePartial 2024 (body req)) = true /\
  Forall (conforms 2024) ms /\
  Forall (conforms 2024)
    (store_after (serve (patch_movie_handler 2024 req) ms)).
Proof.
  intros movie req ms.
  assert (Forall (conforms 2024) ms) as Hms.
  { apply Forall_singleton. by apply validateMovie_success. }
  split; [reflexivity|]. split; [exact Hms|].
  exact (valid_patch_keeps_conformance 2024 req ms eq_refl Hms).
Defined.

Lemma normalized_idemp props :
  Spec.normalized (Spec.normalized props) = Spec.normalized props.
Proof.
  assert (Spec.normalized props !! "rating" =
          Some (default (JNumber (Qc_of_Z 5)) (props !! "rating"))) as Hrating
    by apply (normalized_fields props Spec.Rating).
  apply map_eq. intros k. apply option_eq. intros v.
  unfold Spec.normalized at 1. rewrite lookup_insert_Some, supplied_lookup, Hrating.
  cbn [default]. split.
  - intros [[<- <-]|[Hk (f & <- & Hv)]]; done.
  - intros Hv. destruct (decide ("rating" = k)) as [<-|Hk].
    + left. split; [done|]. rewrite Hrating in Hv. by simplify_eq.
    + right. split; [done|].
      unfold Spec.normalized in Hv. rewrite lookup_insert_ne in Hv by done.
      apply supplied_lookup in Hv as (f & <- & Hv). exists f. split; [done|].
      rewrite normalized_fields. destruct f; done.
Qed.

(** X11. Full validation returns a fixed point: validating the data of a
    successful validation succeeds with the same data. *)
Theorem validateMovie_fixes_its_output fullYear candidate data :
  validateMovie fullYear candidate = SafeParseSuccess data ->
  validateMovie fullYear data = SafeParseSuccess data.
Proof.
  intros Hresult.
  destruct (validateMovie_accepts_objects fullYear candidate)
    as [props ->]; [by rewrite Hresult|].
  pose proof Hresult as ->%validateMovie_data.
  assert (success (validateMovie fullYear (Some (JObject (Spec.normalized props)))) = true)
    as Hok.
  { apply validateMovie_success.
    rewrite <- (right_id_L ∅ (∪) (Spec.normalized props)).
    apply normalized_conforms; [|done].
    apply validateMovie_success. by rewrite Hresult. }
  destruct (validateMovie fullYear (Some (JObject (Spec.normalized props))))
    as [data|] eqn:Hagain; [|done].
  apply validateMovie_data in Hagain as ->. by rewrite normalized_idemp.
Qed.

(** [validateMovie_fixes_its_output] on a concrete store and request. *)
Lemma validateMovie_fixes_its_output_witness :
  let candidate :=
    Some (JObject {[ "title" := JString "X"; "year" := JNumber (Qc_of_Z 2000);
                     "director" := JString "D"; "duration" := JNumber (Qc_of_Z 90);
                     "genre" := JArray [JString "drama"];
                     "poster" := JString "p.png" ]}) in
  let data :=
    Some (JObject {[ "title" := JString "X"; "year" := JNumber (Qc_of_Z 2000);
                     "director" := JString "D"; "duration" := JNumber (Qc_of_Z 90);
                     "genre" := JArray [JString "drama"];
                     "rating" := JNumber (Qc_of_Z 5) ]}) in
  validateMovie 2024 candidate = SafeParseSuccess data /\
  validateMovie 2024 data = SafeParseSuccess data.
Proof.
  intros candidate data.
  assert (validateMovie 2024 candidate = SafeParseSuccess data) as Hresult
    by by vm_compute.
  split; [exact Hresult|].
  exact (validateMovie_fixes_its_output 2024 candidate data Hresult).
Defined.

(** X12. Any part of the fields of a body accepted by full validation is
    accepted by partial validation. *)
Theorem accepted_fields_make_accepted_patch fullYear props props' :
  props' ⊆ props ->
  success (validateMovie fullYear (Some (JObject props))) = true ->
  success (validateMoviePartial fullYear (Some (JObject props'))) = true.
Proof.
  intros Hsub Hok%validateMovie_success. apply validateMoviePartial_success.
  change (conforms fullYear props) in Hok. rewrite conforms_fields in Hok.
  exists props'. split; [done|].
  intros f v Hv. specialize (Hok f).
  by rewrite (lookup_weaken _ _ _ _ Hv Hsub) in Hok.
Qed.

(** [accepted_fields_make_accepted_patch] on a concrete store and request. *)
Lemma accepted_fields_make_accepted_patch_witness :
  let props : gmap string JValue :=
    {[ "title" := JString "X"; "year" := JNumber (Qc_of_Z 2000);
       "director" := JString "D"; "duration" := JNumber (Qc_of_Z 90);
       "genre" := JArray [JString "drama"] ]} in
  let props' : gmap string JValue := {[ "year" := JNumber (Qc_of_Z 2000) ]} in
  props' ⊆ props /\
  success (validateMovie 2024 (Some (JObject props))) = true /\
  success (validateMoviePartial 2024 (Some (JObject props'))) = true.
Proof.
  intros props props'.
  assert (props' ⊆ props) as Hsub.
  { apply map_singleton_subseteq_l. reflexivity. }
  split; [exact Hsub|]. split; [reflexivity|].
  exact (accepted_fields_make_accepted_patch 2024 props props' Hsub eq_refl).
Defined.

(** X14. The create and patch handlers end by an exception exactly when the
    body is rejected; the main page, get-by-id, delete and pre-flight handlers
    never do; these six always send a response; the list handler ends by an
    exception exactly when it sends none. *)
Theorem exceptions_follow_rejected_bodies fullYear uuid req ms :
  (threw (serve (post_movies_handler fullYear uuid req) ms) =
     negb (success (validateMovie fullYear (body req))) /\
   threw (serve (patch_movie_handler fullYear req) ms) =
     negb (success (validateMoviePartial fullYear (body req)))) /\
  (threw (serve (main_page_handler req) ms) = false /\
   threw (serve (get_movie_handler req) ms) = false /\
   threw (serve (delete_movie_handler req) ms) = false /\
   threw (serve (options_movie_handler req) ms) = false) /\
  (is_Some (response_of (serve (post_movies_handler fullYear uuid req) ms)) /\
   is_Some (response_of (serve (patch_movie_handler fullYear req) ms)) /\
   is_Some (response_of (serve (main_page_handler req) ms)) /\
   is_Some (response_of (serve (get_movie_handler req) ms)) /\
   is_Some (response_of (serve (delete_movie_handler req) ms)) /\
   is_Some (response_of (serve (options_movie_handler req) ms))) /\
  (threw (serve (get_movies_handler req) ms) = true <->
   response_of (serve (get_movies_handler req) ms) = None).
Proof.
  assert (threw (serve (post_movies_handler fullYear uuid req) ms) =
            negb (success (validateMovie fullYear (body req))) /\
          is_Some (response_of (serve (post_movies_handler fullYear uuid req) ms)))
    as [Hpost Hpost'].
  { destruct (validateMovie fullYear (body req)) as [data|error] eqn:Hresult.
    - by rewrite (post_movies_valid _ _ _ _ _ Hresult).
    - by rewrite (post_movies_invalid _ _ _ _ _ Hresult). }
  assert (threw (serve (patch_movie_handler fullYear req) ms) =
            negb (success (validateMoviePartial fullYear (body req))) /\
          is_Some (response_of (serve (patch_movie_handler fullYear req) ms)))
    as [Hpatch Hpatch'].
  { destruct (validateMoviePartial fullYear (body req)) as [data|error] eqn:Hresult.
    - rewrite (patch_movie_valid _ _ _ _ Hresult). by destruct (array_findIndex _ _).
    - rewrite (patch_movie_invalid _ _ _ _ Hresult). cbn zeta.
      by destruct (array_findIndex _ _). }
  assert (threw (serve (get_movie_handler req) ms) = false /\
          is_Some (response_of (serve (get_movie_handler req) ms))) as [Hget Hget'].
  { destruct (array_find (id_is (params_id req)) ms) as [movie|] eqn:Hfind.
    - by rewrite (get_movie_found _ _ _ Hfind).
    - by rewrite (get_movie_not_found _ _ Hfind). }
  assert (threw (serve (delete_movie_handler req) ms) = false /\
          is_Some (response_of (serve (delete_movie_handler req) ms)))
    as [Hdelete Hdelete'].
  { rewrite delete_movie_run. cbn zeta. by destruct (array_findIndex _ _). }
  split_and!; try done.
  - by rewrite options_movie_run.
  - by rewrite options_movie_run.
  - rewrite get_movies_run. cbn zeta.
    destruct (truthy _); [|done]. by destruct (array_filter _ _).
Qed.

(** X15. A list request with no [genre] parameter, or an empty one, answers
    200 with the whole store in order. *)
Theorem list_without_tag_answers_whole_store req ms :
  truthy (query_genre req) = false ->
  response_of (serve (get_movies_handler req) ms) =
    Some {| status := 200;
            headers := Spec.authorize ACCEPTED_ORIGINS false (origin_header req);
            payload := movies_json ms |} /\
  threw (serve (get_movies_handler req) ms) = false.
Proof.
  intros Htag. rewrite get_movies_run. cbn zeta. by rewrite Htag.
Qed.

(** [list_without_tag_answers_whole_store] on a concrete store and request. *)
Lemma list_without_tag_answers_whole_store_witness :
  let req := {| origin_header := None; query_genre := Some EmptyString;
                params_id := EmptyString; body := None |} in
  let ms : list (gmap string JValue) :=
    [ {[ "id" := JString "uuid-1" ]};
      {[ "id" := JString "2"; "genre" := JArray [JString "Drama"] ]} ] in
  truthy (query_genre req) = false /\
  response_of (serve (get_movies_handler req) ms) =
    Some {| status := 200;
            headers := Spec.authorize ACCEPTED_ORIGINS false (origin_header req);
            payload := movies_json ms |} /\
  threw (serve (get_movies_handler req) ms) = false.
Proof.
  intros req ms. split; [reflexivity|].
  exact (list_without_tag_answers_whole_store req ms eq_refl).
Defined.

Lemma conforms_genre_texts fullYear movie : conforms fullYear movie -> genre_texts movie.
Proof.
  rewrite conforms_fields. intros H. specialize (H Spec.Genre).
  unfold genre_texts. cbn [Spec.name] in H.
  destruct (movie !! "genre") as [v|]; [|discriminate H].
  destruct H as (items & -> & Htags). exists items. split; [done|].
  intros g Hg. destruct (Htags g Hg) as (s & -> & _). by exists s.
Qed.

(** X17. On a store whose resources all pass the full contract, a list
    request with a non-empty tag never ends by an exception and answers with
    the resources whose genre array is not empty. *)
Theorem genre_filter_safe_on_conforming_store fullYear req ms :
  truthy (query_genre req) = true ->
  Forall (conforms fullYear) ms ->
  threw (serve (get_movies_handler req) ms) = false /\
  payload <$> response_of (serve (get_movies_handler req) ms) =
    Some (movies_json (List.filter has_genres ms)).
Proof.
  intros Htag Hms. rewrite get_movies_run. cbn zeta. rewrite Htag.
  rewrite array_filter_texts; [done|].
  intros movie Hm. rewrite Forall_forall in Hms.
  eauto using conforms_genre_texts.
Qed.

(** [genre_filter_safe_on_conforming_store] on a concrete store and request. *)
Lemma genre_filter_safe_on_conforming_store_witness :
  let movie : gmap string JValue :=
    {[ "id" := JString "1";
       "title" := JString "X"; "year" := JNumber (Qc_of_Z 2000);
       "director" := JString "D"; "duration" := JNumber (Qc_of_Z 90);
       "genre" := JArray [] ]} in
  let req := {| origin_header := None; query_genre := Some "drama";
                params_id := EmptyString; body := None |} in
  truthy (query_genre req) = true /\
  Forall (conforms 2024) [movie] /\
  threw (serve (get_movies_handler req) [movie]) = false /\
  payload <$> response_of (serve (get_movies_handler req) [movie]) =
    Some (movies_json (List.filter has_genres [movie])).
Proof.
  intros movie req.
  assert (Forall (conforms 2024) [movie]) as Hms.
  { apply Forall_singleton. by apply validateMovie_success. }
  split; [reflexivity|]. split; [exact Hms|].
  exact (genre_filter_safe_on_conforming_store 2024 req [movie] eq_refl Hms).
Defined.

Lemma only_one_app_fresh id ms created :
  only_one id ms ->
  (Spec.has_id id created -> ~ Spec.present id ms) ->
  only_one id (ms ++ [created]).
Proof.
  intros Honly Hfresh i j m m' Hi Hj Hm Hm'.
  apply lookup_app_Some in Hi as [Hi|[Hil Hi]], Hj as [Hj|[Hjl Hj]].
  - eauto.
  - apply list_lookup_singleton_Some in Hj as [_ <-].
    destruct (Hfresh Hm'). exists m. split; [|done]. by eapply list_elem_of_lookup_2.
  - apply list_lookup_singleton_Some in Hi as [_ <-].
    destruct (Hfresh Hm). exists m'. split; [|done]. by eapply list_elem_of_lookup_2.
  - apply list_lookup_singleton_Some in Hi as [Hi _], Hj as [Hj _]. lia.
Qed.

Lemma only_one_remove id before movie rest :
  only_one id (before ++ movie :: rest) -> only_one id (before ++ rest).
Proof.
  intros Honly i j m m' Hi Hj Hm Hm'.
  set (skip k := if decide (k < length before)%nat then k else S k).
  assert (forall k x, (before ++ rest) !! k = Some x ->
            (before ++ movie :: rest) !! skip k = Some x) as Hskip.
  { intros k x Hk. unfold skip. case_decide.
    - by rewrite lookup_app_l in Hk |- * by done.
    - rewrite lookup_app_r in Hk |- * by lia.
      by replace (S k - length before)%nat with (S (k - length before)) by lia. }
  assert (skip i = skip j) as Heq by eauto.
  unfold skip in Heq. repeat case_decide; lia.
Qed.

Lemma only_one_replace id before old updated rest :
  updated !! "id" = old !! "id" ->
  only_one id (before ++ old :: rest) -> only_one id (before ++ updated :: rest).
Proof.
  intros Hid Honly i j m m' Hi Hj Hm Hm'.
  assert (forall k x, (before ++ updated :: rest) !! k = Some x -> Spec.has_id id x ->
            exists y, (before ++ old :: rest) !! k = Some y /\ Spec.has_id id y) as Hback.
  { intros k x Hk Hx.
    destruct (decide (k = length before)) as [->|Hne].
    - rewrite list_lookup_middle in Hk |- * by done. simplify_eq.
      exists old. split; [done|]. unfold Spec.has_id in *. by rewrite <- Hid.
    - exists x. split; [|done].
      destruct (decide (k < length before)%nat).
      + by rewrite lookup_app_l in Hk |- * by done.
      + rewrite lookup_app_r in Hk |- * by lia.
        destruct (k - length before)%nat as [|d] eqn:Hd; [lia|done]. }
  destruct (Hback _ _ Hi Hm) as (y & Hy & Hy').
  destruct (Hback _ _ Hj Hm') as (y' & Hy2 & Hy2').
  eauto.
Qed.

(** X16. When no two stored resources share an id and the generated id is
    fresh, the create, patch and delete handlers leave a store where no two
    resources share an id. *)
Theorem handlers_keep_ids_unique fullYear uuid req ms :
  (forall id, only_one id ms) ->
  ~ Spec.present uuid ms ->
  (forall id, only_one id (store_after (serve (post_movies_handler fullYear uuid req) ms))) /\
  (forall id, only_one id (store_after (serve (patch_movie_handler fullYear req) ms))) /\
  (forall id, only_one id (store_after (serve (delete_movie_handler req) ms))).
Proof.
  intros Hunique Hfresh. split_and!.
  - intros id.
    assert (exists created,
              store_after (serve (post_movies_handler fullYear uuid req) ms) =
                ms ++ [created] /\ Spec.has_id uuid created) as (created & -> & Hid).
    { destruct (validateMovie fullYear (body req)) as [data|error] eqn:Hresult.
      - rewrite (post_movies_valid _ _ _ _ _ Hresult). eexists. split; [done|].
        destruct (validateMovie_accepts_objects fullYear (body req))
          as [props Hbody]; [by rewrite Hresult|].
        rewrite Hbody in Hresult. apply validateMovie_data in Hresult as ->.
        unfold Spec.has_id. cbn [spread].
        rewrite lookup_union. unfold Spec.normalized.
        rewrite lookup_insert_ne, supplied_no_id by done.
        by rewrite lookup_singleton_eq.
      - rewrite (post_movies_invalid _ _ _ _ _ Hresult). eexists. split; [done|].
        apply lookup_singleton_eq. }
    apply only_one_app_fresh; [done|].
    intros Hid'. unfold Spec.has_id in *. by simplify_eq.
  - intros id. destruct (patch_movie_store fullYear req ms)
      as [->|(props & before & old & rest & _ & _ & Hms & _ & _ & ->)]; [done|].
    apply (only_one_replace _ _ old).
    + by rewrite lookup_union, supplied_no_id, (left_id_L None _).
    + rewrite <- Hms. apply Hunique.
  - intros id. destruct (delete_movie_store req ms)
      as [[_ ->]|(before & movie & rest & Hms & _ & _ & ->)]; [done|].
    apply (only_one_remove _ _ movie). rewrite <- Hms. apply Hunique.
Qed.

(** [handlers_keep_ids_unique] on a concrete store and request. *)
Lemma handlers_keep_ids_unique_witness :
  let req := {| origin_header := None; query_genre := None; params_id := "1";
                body := Some (JObject {[ "rating" := JNumber (Qc_of_Z 3) ]}) |} in
  let ms : list (gmap string JValue) :=
    [ {[ "id" := JString "1" ]}; {[ "id" := JString "2" ]} ] in
  (forall id, only_one id ms) /\
  ~ Spec.present "uuid-3" ms /\
  (forall id, only_one id (store_after (serve (post_movies_handler 2024 "uuid-3" req) ms))) /\
  (forall id, only_one id (store_after (serve (patch_movie_handler 2024 req) ms))) /\
  (forall id, only_one id (store_after (serve (delete_movie_handler req) ms))).
Proof.
  intros req ms.
  assert (forall id, only_one id ms) as Hunique.
  { intros id [|[|i]] [|[|j]] m m' Hi Hj Hm Hm'; try done;
      unfold Spec.has_id in *; simplify_eq/=;
      rewrite lookup_singleton_eq in Hm, Hm'; congruence. }
  assert (~ Spec.present "uuid-3" ms) as Hfresh.
  { apply absent_find. reflexivity. }
  split; [exact Hunique|]. split; [exact Hfresh|].
  exact (handlers_keep_ids_unique 2024 "uuid-3" req ms Hunique Hfresh).
Defined.
